(** * clean_dir_list.py: a verified model of the directory lister

    The program walks a directory tree with [os.walk], prunes directories by
    base name, renders every listed entry as a root-relative POSIX path,
    sorts the paths and prints either all of them or those that occur in a
    fixed example list.

    The file system is the program's environment.  It is modelled as a tree
    of directory entries in the order [os.scandir] enumerates them; the
    library routines the program calls ([posixpath.join], [pathlib]'s
    parsing and rendering for the POSIX flavour, [os.walk], [list.sort]) are
    modelled next to the program's own functions.  Strings are sequences of
    character codes, standard output is the list of the lines printed, and
    [main] starts from the namespace [argparse] has built. *)

From Stdlib Require Import ZArith Ascii String.
From stdpp Require Import base option list strings gmap sorting.


(** ** Strings *)

Definition slash : ascii := "/"%char.

Definition is_slash (c : ascii) : bool := Ascii.eqb c slash.

(** [s.startswith("/")] and [s.endswith("/")]. *)
Definition starts_with_slash (s : string) : bool :=
  match s with
  | String c _ => is_slash c
  | EmptyString => false
  end.

Fixpoint ends_with_slash (s : string) : bool :=
  match s with
  | EmptyString => false
  | String c EmptyString => is_slash c
  | String _ s' => ends_with_slash s'
  end.

(** [s.split("/")]: never empty, one empty piece for the empty string. *)
Fixpoint split_slash (s : string) : list string :=
  match s with
  | EmptyString => [EmptyString]
  | String c s' =>
      if is_slash c then EmptyString :: split_slash s'
      else match split_slash s' with
           | [] => [String c EmptyString]
           | piece :: pieces => String c piece :: pieces
           end
  end.

(** ["/".join(names)]. *)
Fixpoint join_slash (names : list string) : string :=
  match names with
  | [] => EmptyString
  | [name] => name
  | name :: rest => name +:+ "/" +:+ join_slash rest
  end.

Fixpoint has_slash (s : string) : bool :=
  match s with
  | EmptyString => false
  | String c s' => is_slash c || has_slash s'
  end.

(** What [os.scandir] can return as an entry name on POSIX: a single path
    component other than ["."]. *)
Definition valid_name (name : string) : Prop :=
  name ≠ EmptyString ∧ name ≠ "." ∧ has_slash name = false.

#[global] Instance valid_name_dec name : Decision (valid_name name).
Proof. unfold valid_name. apply _. Defined.

(** ** Paths *)

(** [posixpath.join(a, b)] for two arguments. *)
Definition os_path_join (a b : string) : string :=
  if starts_with_slash b then b
  else if bool_decide (a = EmptyString) || ends_with_slash a then a +:+ b
  else a +:+ "/" +:+ b.

(** [os.path.basename]: what follows the last separator. *)
Definition basename (p : string) : string := default EmptyString (last (split_slash p)).

(** A [pathlib.PurePosixPath]: the anchor (empty, ["/"] or ["//"]) and the
    names after it. *)
Record PurePath : Type := mkPath { anchor : string; names : list string }.

#[global] Instance PurePath_eq_dec : EqDecision PurePath.
Proof. solve_decision. Defined.

(** The anchor of a path string: two leading slashes are kept, one or three
    and more collapse to one. *)
Definition parse_anchor (s : string) : string :=
  match s with
  | String c1 (String c2 (String c3 _)) =>
      if is_slash c1
      then if is_slash c2 then if is_slash c3 then "/" else "//" else "/"
      else EmptyString
  | String c1 (String c2 EmptyString) =>
      if is_slash c1 then if is_slash c2 then "//" else "/" else EmptyString
  | String c1 EmptyString => if is_slash c1 then "/" else EmptyString
  | EmptyString => EmptyString
  end.

(** A name that survives parsing: empty pieces and ["."] are dropped. *)
Definition kept_name (name : string) : Prop := name ≠ EmptyString ∧ name ≠ ".".

#[global] Instance kept_name_dec name : Decision (kept_name name).
Proof. unfold kept_name. apply _. Defined.

(** [Path(s)]. *)
Definition Path (s : string) : PurePath :=
  {| anchor := parse_anchor s; names := filter kept_name (split_slash s) |}.

(** The paths [Path] produces: a POSIX anchor followed by valid names. *)
Definition normal (p : PurePath) : Prop :=
  anchor p ∈ [EmptyString; "/"; "//"] ∧ Forall valid_name (names p).

(** [str(p)]. *)
Definition str (p : PurePath) : string :=
  match anchor p, names p with
  | EmptyString, [] => "."
  | a, ns => a +:+ join_slash ns
  end.

(** [p.as_posix()]: on the POSIX flavour the separator already is ["/"]. *)
Definition as_posix (p : PurePath) : string := str p.

(** [p / key]: the key is parsed; an anchored key replaces [p]. *)
Definition joinpath (p : PurePath) (key : string) : PurePath :=
  let k := Path key in
  if bool_decide (anchor k = EmptyString) then
    {| anchor := anchor p; names := names p ++ names k |}
  else k.

Infix "</>" := joinpath (at level 40, left associativity).

(** [strip_prefix pre l]: the rest of [l] after [pre], if [pre] starts it. *)
Fixpoint strip_prefix (pre l : list string) : option (list string) :=
  match pre, l with
  | [], _ => Some l
  | x :: pre', y :: l' => if bool_decide (x = y) then strip_prefix pre' l' else None
  | _ :: _, [] => None
  end.

(** [p.relative_to(other)]; [None] stands for the [ValueError] raised when
    [other] is not an ancestor of [p]. *)
Definition relative_to (p other : PurePath) : option PurePath :=
  if bool_decide (anchor p = anchor other) then
    rest ← strip_prefix (names other) (names p);
    Some {| anchor := EmptyString; names := rest |}
  else None.

(** ** The file system *)

(** What a directory entry is: a regular file, a special file (named pipe,
    socket, device), a directory with its entries in the order
    [os.scandir] yields them, a directory that [os.scandir] cannot list, or
    a symbolic link with what it resolves to, [None] when it dangles. *)
Local Unset Elimination Schemes.
Inductive node : Type :=
| Regular
| Special
| Directory (entries : list (string * node))
| Unreadable
| Symlink (target : option node).
Local Set Elimination Schemes.

(** [entry.is_dir()]: follows symbolic links. *)
Fixpoint is_dir (n : node) : bool :=
  match n with
  | Directory _ | Unreadable => true
  | Symlink (Some t) => is_dir t
  | _ => false
  end.

(** [os.path.islink]. *)
Definition islink (n : node) : bool :=
  match n with
  | Symlink _ => true
  | _ => false
  end.

(** The operating system as the program sees it: [realpath] is
    [os.path.realpath], [stat] gives what a path string resolves to, links
    followed, if anything.  Where [stat] gives nothing, [denied] tells why:
    [false] when nothing is there ([os.stat] fails with [ENOENT],
    [ENOTDIR], [EBADF] or [ELOOP]), [true] when [os.stat] fails with
    another [OSError], such as the [PermissionError] for a path below a
    directory that may not be searched. *)
Record world : Type := mkWorld {
  realpath : string → string;
  stat : string → option node;
  denied : string → bool
}.

(** [p.resolve()]. *)
Definition resolve (w : world) (p : PurePath) : PurePath :=
  Path (realpath w (str p)).

(** [p.exists()] and [p.is_dir()]: both call [os.stat], answer [False] for
    the errors that mean nothing is there and let any other [OSError]
    through; [None] stands for the exception. *)

Definition path_exists (w : world) (p : PurePath) : option bool :=
  match stat w (str p) with
  | Some _ => Some true
  | None => if denied w (str p) then None else Some false
  end.

Definition path_is_dir (w : world) (p : PurePath) : option bool :=
  match stat w (str p) with
  | Some n => Some (is_dir n)
  | None => if denied w (str p) then None else Some false
  end.

(** ** os.walk *)

(** The names [os.walk] sorts into [dirs] and [nondirs] while it scans. *)
Definition scan_dirs (entries : list (string * node)) : list string :=
  (filter (λ e, is_dir e.2 = true) entries).*1.

Definition scan_nondirs (entries : list (string * node)) : list string :=
  (filter (λ e, is_dir e.2 = false) entries).*1.

(** The walker's state: the paths handed to [os.scandir] so far, and the
    state of the loop that consumes the generator. *)
Record walk_state (A : Type) : Type := mkWalk { scanned : list string; acc : A }.
Arguments mkWalk {A} _ _.
Arguments scanned {A} _.
Arguments acc {A} _.

Definition log_scandir {A} (top : string) (st : walk_state A) : walk_state A :=
  mkWalk (scanned st ++ [top]) (acc st).

Section Walk.
Context {A : Type}.

(** The body of [for dirpath, dirnames, filenames in os.walk(...)]: from
    the yielded triple and the loop state to the list [dirnames] as the
    body leaves it and the new loop state; [None] when it raises. *)
Variable body : string → list string → list string → A → option (list string * A).

(** The entry of [top] called [dirname], as [os.walk] meets it after the
    [yield]: a symbolic link is not walked ([followlinks=False]), and a
    name with no entry makes [scandir] fail, which [os.walk] ignores. *)
Definition walk_child (rec : string → node → walk_state A → option (walk_state A))
    (new_path dirname : string) : list (string * node) → walk_state A → option (walk_state A) :=
  fix find (es : list (string * node)) (st : walk_state A) :=
    match es with
    | [] => Some (log_scandir new_path st)
    | (name, child) :: es' =>
        if bool_decide (name = dirname)
        then if islink child then Some st else rec new_path child st
        else find es' st
    end.

(** [for dirname in dirs: ...] after the [yield]. *)
Definition walk_dirs (rec : string → node → walk_state A → option (walk_state A))
    (top : string) (entries : list (string * node)) : list string → walk_state A → option (walk_state A) :=
  fix descend (dirs : list string) (st : walk_state A) :=
    match dirs with
    | [] => Some st
    | dirname :: dirs' =>
        st' ← walk_child rec (os_path_join top dirname) dirname entries st;
        descend dirs' st'
    end.

(** [os.walk(top, topdown=True, followlinks=False)] driven by [body], on
    the node [top] denotes.  Where [os.scandir] fails ([top] is no
    directory, or one that cannot be listed) the walk yields nothing for
    [top] and goes on: no [onerror] is given. *)
Fixpoint walk_from (top : string) (n : node) (st : walk_state A) : option (walk_state A) :=
  let st := log_scandir top st in
  match n with
  | Directory entries =>
      '(dirs, a) ← body top (scan_dirs entries) (scan_nondirs entries) (acc st);
      walk_dirs (λ p c s, walk_from p c s) top entries dirs (mkWalk (scanned st) a)
  | _ => Some st
  end.

Definition os_walk (w : world) (top : string) (a : A) : option (walk_state A) :=
  match stat w top with
  | Some n => walk_from top n (mkWalk [] a)
  | None => Some (mkWalk [top] a)
  end.
End Walk.

(** ** The program *)

Definition EXAMPLE_FILES : list string := [
  "package.json";
  "src/main.tsx";
  "src/App.tsx";
  "src/lib/supabaseClient.ts";
  "src/contexts/AuthProvider.tsx";
  "src/components/Navbar.tsx";
  "src/components/AuthModal.tsx";
  "src/pages/Dashboard.tsx";
  "src/pages/Explore.tsx";
  "src/db/migrations/001_create_profiles.sql";
  "README_SUBTASK1.md"
].

Definition DEFAULT_EXCLUDE_DIRS : gset string :=
  list_to_set [
    "node_modules";
    ".git";
    "dist";
    "build";
    ".vite";
    ".cache";
    ".parcel-cache";
    "__pycache__"
  ].

(** [results.sort()]: the order of [str] is [String.le], lexicographic on
    character codes with a proper prefix first. *)
Definition sort (results : list string) : list string := merge_sort String.le results.

(** The body of the loop of [gather_files] over what [os.walk] yields:
    [dirnames[:]] is pruned in place, which is what the generator reads
    back when it resumes, and one path per file name is appended. *)
Definition gather_body (root : PurePath) (exclude_dirs : gset string)
    (dirpath : string) (dirnames filenames : list string) (results : list string)
    : option (list string * list string) :=
  let dirnames := filter (λ d, d ∉ exclude_dirs) dirnames in
  rel_dir ← relative_to (Path dirpath) root;
  let results :=
    fold_left
      (λ results f,
         let rel_path :=
           if bool_decide (str rel_dir = ".") then f
           else as_posix (rel_dir </> f) in
         results ++ [rel_path])
      filenames results in
  Some (dirnames, results).

(** The loop of [gather_files], with the walker's state kept. *)
Definition gather_walk (w : world) (root : PurePath) (exclude_dirs : gset string)
    : option (walk_state (list string)) :=
  let root := resolve w root in
  os_walk (gather_body root exclude_dirs) w (str root) [].

Definition gather_files (w : world) (root : PurePath) (exclude_dirs : gset string)
    : option (list string) :=
  st ← gather_walk w root exclude_dirs;
  Some (sort (acc st)).

(** [print(line)] on the lines written to standard output so far. *)
Definition print (line : string) (stdout : list string) : list string :=
  stdout ++ [line].

Definition print_all_files (w : world) (root : PurePath) (exclude_dirs : gset string)
    (stdout : list string) : option (list string) :=
  files ← gather_files w root exclude_dirs;
  Some (fold_left (λ out p, print p out) files stdout).

Definition print_only_example (w : world) (root : PurePath) (exclude_dirs : gset string)
    (stdout : list string) : option (list string) :=
  files ← gather_files w root exclude_dirs;
  let found : gset string := list_to_set files in
  Some (fold_left (λ out p, if bool_decide (p ∈ found) then print p out else out)
          EXAMPLE_FILES stdout).

(** What [argparse] hands to [main]. *)
Record Namespace : Type := mkArgs {
  root : string;
  only_example : bool;
  ignore : list string
}.

Definition root_error (root : PurePath) : string :=
  "[error] root path '" +:+ str root +:+ "' does not exist or is not a directory.".

(** [not root.exists() or not root.is_dir()]: [is_dir] is not asked when
    [exists] has answered [False]; [None] when either raises. *)
Definition root_is_bad (w : world) (root : PurePath) : option bool :=
  found ← path_exists w root;
  if negb found then Some true
  else
    is_directory ← path_is_dir w root;
    Some (negb is_directory).

(** [main], as a function of the module's default exclude set: the lines
    printed and the exit status ([2] for [SystemExit(2)], [1] when an
    exception escapes). *)
Definition main_with (default_exclude_dirs : gset string) (args : Namespace) (w : world)
    : list string * Z :=
  let root := Path (root args) in
  match root_is_bad w root with
  | None => ([], 1%Z)
  | Some true => (print (root_error root) [], 2%Z)
  | Some false =>
      let exclude := default_exclude_dirs in
      let exclude := exclude ∪ list_to_set (ignore args) in
      let printed :=
        if only_example args then print_only_example w root exclude []
        else print_all_files w root exclude [] in
      match printed with
      | Some stdout => (stdout, 0%Z)
      | None => ([], 1%Z)
      end
  end.

Definition main (args : Namespace) (w : world) : list string * Z :=
  main_with DEFAULT_EXCLUDE_DIRS args w.

(** ** Well-formed trees and what the walk lists *)

(** A directory tree as a POSIX file system presents it: the names of a
    directory are valid and pairwise distinct, at every level and behind
    every link. *)
Fixpoint wf_node (n : node) : bool :=
  match n with
  | Directory entries =>
      bool_decide (NoDup entries.*1) &&
      forallb (λ e, bool_decide (valid_name e.1) && wf_node e.2) entries
  | Symlink (Some t) => wf_node t
  | _ => true
  end.

(** The component lists of the entries the walk lists below a directory
    whose own components are [ds], in the order the walk meets them. *)
Fixpoint walk_paths (exclude_dirs : gset string) (ds : list string) (n : node)
    : list (list string) :=
  match n with
  | Directory entries =>
      ((λ f, ds ++ [f]) <$> scan_nondirs entries) ++
      (entries ≫= λ e,
         if bool_decide (e.1 ∉ exclude_dirs)
         then walk_paths exclude_dirs (ds ++ [e.1]) e.2
         else [])
  | _ => []
  end.

(** The directories the walk hands to [os.scandir] from the directory
    [top] on. *)
Fixpoint walk_scans (exclude_dirs : gset string) (top : string) (n : node)
    : list string :=
  match n with
  | Directory entries =>
      top :: (entries ≫= λ e,
                if bool_decide (e.1 ∉ exclude_dirs)
                then walk_scans exclude_dirs (os_path_join top e.1) e.2
                else [])
  | Unreadable => [top]
  | _ => []
  end.

(** The entries of the directory a node resolves to, through any chain of
    symbolic links. *)
Fixpoint dir_entries (n : node) : option (list (string * node)) :=
  match n with
  | Directory entries => Some entries
  | Symlink (Some t) => dir_entries t
  | _ => None
  end.

(** A regular file, possibly behind symbolic links. *)
Fixpoint is_regular (n : node) : bool :=
  match n with
  | Regular => true
  | Symlink (Some t) => is_regular t
  | _ => false
  end.

(** [reach entries p n]: path resolution.  From a directory with these
    entries the names [p] lead to the entry [n]; intermediate names may be
    directories or links to directories. *)
Inductive reach : list (string * node) → list string → node → Prop :=
| reach_here entries d n :
    (d, n) ∈ entries → reach entries [d] n
| reach_below entries d c sub p n :
    (d, c) ∈ entries → dir_entries c = Some sub → reach sub p n →
    reach entries (d :: p) n.

(** [listed exclude_dirs entries p]: the names [p] lead to an entry that
    is not a directory, through directories proper (no links) none of which
    has its name in [exclude_dirs]. *)
Inductive listed (exclude_dirs : gset string)
    : list (string * node) → list string → Prop :=
| listed_here entries f n :
    (f, n) ∈ entries → is_dir n = false → listed exclude_dirs entries [f]
| listed_below entries d sub p :
    (d, Directory sub) ∈ entries → d ∉ exclude_dirs →
    listed exclude_dirs sub p → listed exclude_dirs entries (d :: p).

(** The root-relative path of the file [f] of the directory with the
    root-relative names [ds]: the bare name in the root, and otherwise the
    names of the directory joined by forward slashes, a forward slash and
    the name. *)
Definition emitted (ds : list string) (f : string) : string :=
  if decide (ds = []) then f else join_slash ds +:+ "/" +:+ f.


(** [same_tree n n']: the same file system objects, with the entries of
    each directory enumerated in a possibly different order. *)
Local Unset Elimination Schemes.
Inductive same_tree : node → node → Prop :=
| same_regular : same_tree Regular Regular
| same_special : same_tree Special Special
| same_directory entries shuffled entries' :
    entries ≡ₚ shuffled →
    Forall2 (λ e e', e.1 = e'.1 ∧ same_tree e.2 e'.2) shuffled entries' →
    same_tree (Directory entries) (Directory entries')
| same_unreadable : same_tree Unreadable Unreadable
| same_symlink target target' :
    option_Forall2 same_tree target target' →
    same_tree (Symlink target) (Symlink target').
Local Set Elimination Schemes.

(** ** Trees and worlds to run the program on *)

(** The first scenario of the specification: [package.json],
    [node_modules/pkg/index.js] and [src/App.tsx]. *)
Definition project_tree : node :=
  Directory [
    ("src", Directory [("App.tsx", Regular)]);
    ("node_modules", Directory [("pkg", Directory [("index.js", Regular)])]);
    ("package.json", Regular)
  ].

Definition project_world : world :=
  {| realpath := λ _, "/work/project";
     stat := λ p, if bool_decide (p = "/work/project") || bool_decide (p = ".")
                  then Some project_tree else None;
     denied := λ _, false |}.

(** The second scenario of the specification: a root holding only
    [README_SUBTASK1.md] and [foo.txt]. *)
Definition readme_world : world :=
  {| realpath := λ _, "/work/readme";
     stat := λ p, if bool_decide (p = "/work/readme") || bool_decide (p = ".")
                  then Some (Directory [("foo.txt", Regular); ("README_SUBTASK1.md", Regular)])
                  else None;
     denied := λ _, false |}.

(** A scratch project: sources, an installed package, a build directory, a
    link to a directory elsewhere, a named pipe, a dangling link and a
    directory that cannot be listed. *)
Definition site_entries : list (string * node) := [
  ("src", Directory [
     ("main.tsx", Regular);
     ("App.tsx", Regular);
     ("lib", Directory [("supabaseClient.ts", Regular)]);
     ("build", Directory [("gen.ts", Regular)])
   ]);
  ("node_modules", Directory [("pkg", Directory [("index.js", Regular)])]);
  ("package.json", Regular);
  ("vendor", Symlink (Some (Directory [("lib.js", Regular)])));
  ("events", Special);
  ("latest", Symlink None);
  ("private", Unreadable);
  ("README_SUBTASK1.md", Regular);
  ("foo.txt", Regular)
].

(** The scratch project, checked out as [/srv/build] and visited from
    inside it. *)
Definition site_world : world :=
  {| realpath := λ p, if bool_decide (p = ".") then "/srv/build" else p;
     stat := λ p, if bool_decide (p = "/srv/build") || bool_decide (p = ".")
                  then Some (Directory site_entries) else None;
     denied := λ _, false |}.

(** The scratch project as another enumeration order presents it. *)
Definition site_entries_shuffled : list (string * node) := [
  ("foo.txt", Regular);
  ("README_SUBTASK1.md", Regular);
  ("private", Unreadable);
  ("latest", Symlink None);
  ("events", Special);
  ("vendor", Symlink (Some (Directory [("lib.js", Regular)])));
  ("package.json", Regular);
  ("node_modules", Directory [("pkg", Directory [("index.js", Regular)])]);
  ("src", Directory [
     ("build", Directory [("gen.ts", Regular)]);
     ("lib", Directory [("supabaseClient.ts", Regular)]);
     ("App.tsx", Regular);
     ("main.tsx", Regular)
   ])
].

Definition shuffled_world : world :=
  {| realpath := λ p, p;
     stat := λ p, if bool_decide (p = "/mnt/copy")
                  then Some (Directory site_entries_shuffled) else None;
     denied := λ _, false |}.


(** [entered exclude_dirs entries ds]: the names [ds] lead from the root
    down through directories proper none of which has its name in
    [exclude_dirs]; the root itself is entered whatever its name. *)
Inductive entered (exclude_dirs : gset string)
    : list (string * node) → list string → Prop :=
| entered_root entries : entered exclude_dirs entries []
| entered_below entries d sub ds :
    (d, Directory sub) ∈ entries → d ∉ exclude_dirs →
    entered exclude_dirs sub ds → entered exclude_dirs entries (d :: ds).

(** ** Vocabulary for further properties *)

(** The names of the directories proper of a tree, at every depth. *)
Fixpoint dir_names (n : node) : list string :=
  match n with
  | Directory entries =>
      entries ≫= λ e,
        match e.2 with
        | Directory _ => e.1 :: dir_names e.2
        | _ => []
        end
  | _ => []
  end.

(** [link_variant n n']: the same tree but for what its symbolic links
    point to; a link to a directory stays a link to a directory and a link
    to anything else (or to nothing) stays one. *)
Local Unset Elimination Schemes.
Inductive link_variant : node → node → Prop :=
| variant_regular : link_variant Regular Regular
| variant_special : link_variant Special Special
| variant_directory entries entries' :
    Forall2 (λ e e', e.1 = e'.1 ∧ link_variant e.2 e'.2) entries entries' →
    link_variant (Directory entries) (Directory entries')
| variant_unreadable : link_variant Unreadable Unreadable
| variant_symlink target target' :
    is_dir (Symlink target) = is_dir (Symlink target') →
    link_variant (Symlink target) (Symlink target').
Local Set Elimination Schemes.


(** The scratch project with [vendor] pointing to another directory and
    [latest] pointing to a file. *)
Definition site_entries_relinked : list (string * node) := [
  ("src", Directory [
     ("main.tsx", Regular);
     ("App.tsx", Regular);
     ("lib", Directory [("supabaseClient.ts", Regular)]);
     ("build", Directory [("gen.ts", Regular)])
   ]);
  ("node_modules", Directory [("pkg", Directory [("index.js", Regular)])]);
  ("package.json", Regular);
  ("vendor", Symlink (Some (Directory [("other.js", Regular); ("deep", Directory [])])));
  ("events", Special);
  ("latest", Symlink (Some Regular));
  ("private", Unreadable);
  ("README_SUBTASK1.md", Regular);
  ("foo.txt", Regular)
].

Definition relinked_world : world :=
  {| realpath := λ p, p;
     stat := λ p, if bool_decide (p = "/srv/build")
                  then Some (Directory site_entries_relinked) else None;
     denied := λ _, false |}.

(** The directory names on a relative path: all pieces but the last. *)
Definition dir_parts (s : string) : list string := removelast (split_slash s).

(** The scratch project again, reachable as a whole and from its [src]. *)
Definition site_src_world : world :=
  {| realpath := λ p, p;
     stat := λ p,
       if bool_decide (p = "/srv/build") then Some (Directory site_entries)
       else if bool_decide (p = "/srv/build/src") then
         Some (Directory [
           ("main.tsx", Regular);
           ("App.tsx", Regular);
           ("lib", Directory [("supabaseClient.ts", Regular)]);
           ("build", Directory [("gen.ts", Regular)])
         ])
       else None;
     denied := λ _, false |}.

(** Relates two literal trees that differ in the targets of their links. *)
Ltac link_variant_literal :=
  repeat match goal with
  | |- link_variant Regular Regular => apply variant_regular
  | |- link_variant Special Special => apply variant_special
  | |- link_variant Unreadable Unreadable => apply variant_unreadable
  | |- link_variant (Symlink _) (Symlink _) => apply variant_symlink
  | |- link_variant (Directory _) (Directory _) => apply variant_directory
  | |- Forall2 _ _ _ => constructor
  | |- _ ∧ _ => split
  | |- _ = _ => reflexivity
  | |- link_variant (snd _) (snd _) => cbn [snd]
  end.

(** ** Tactics for concrete trees *)

(** Finds an entry in a literal list of entries. *)
Ltac find_entry :=
  repeat first [apply list_elem_of_here | apply list_elem_of_further].

(** Relates a literal tree to the tree with every directory reversed. *)
Ltac same_tree_reversed :=
  repeat match goal with
  | |- same_tree Regular Regular => apply same_regular
  | |- same_tree Special Special => apply same_special
  | |- same_tree Unreadable Unreadable => apply same_unreadable
  | |- same_tree (Symlink _) (Symlink _) => apply same_symlink
  | |- option_Forall2 _ _ _ => constructor
  | |- same_tree (Directory ?es) (Directory ?es') =>
      let r := eval vm_compute in (reverse es) in
      apply (same_directory es r es');
      [change (es ≡ₚ reverse es); by rewrite reverse_Permutation|]
  | |- Forall2 _ _ _ => constructor
  | |- _ ∧ _ => split
  | |- _ = _ => reflexivity
  | |- same_tree (snd _) (snd _) => cbn [snd]
  end.

(** * Properties *)

(** ** Splitting and joining on the separator *)

Section Strings.
Implicit Types (s a b : string) (c : ascii).

Lemma append_cons c s a : String c s +:+ a = String c (s +:+ a).
Proof. done. Qed.

Lemma append_nil_r s : s +:+ EmptyString = s.
Proof. induction s as [|c s IH]; [done|]. by rewrite append_cons, IH. Qed.

Lemma append_assoc s a b : (s +:+ a) +:+ b = s +:+ (a +:+ b).
Proof. induction s as [|c s IH]; [done|]. by rewrite !append_cons, IH. Qed.

Lemma split_slash_cons s : ∃ piece pieces, split_slash s = piece :: pieces.
Proof.
  destruct s as [|c s]; cbn; [by eauto|].
  destruct (is_slash c); [by eauto|].
  destruct (split_slash s); eauto.
Qed.

Lemma split_slash_no_slash s : has_slash s = false → split_slash s = [s].
Proof.
  induction s as [|c s IH]; [done|]. cbn.
  intros [Hc Hs]%orb_false_elim. rewrite Hc, (IH Hs). done.
Qed.

Lemma split_slash_pieces s : Forall (λ piece, has_slash piece = false) (split_slash s).
Proof.
  induction s as [|c s IH]; cbn; [by repeat constructor|].
  destruct (is_slash c) eqn:Hc; [by constructor|].
  destruct (split_slash s) as [|piece pieces]; [by repeat constructor; cbn; rewrite Hc|].
  inversion_clear IH. constructor; [|done]. cbn. by rewrite Hc.
Qed.

Lemma split_slash_app a b :
  split_slash (a +:+ "/" +:+ b) = split_slash a ++ split_slash b.
Proof.
  induction a as [|c a IH]; [done|].
  rewrite append_cons. cbn [split_slash].
  destruct (is_slash c); [by rewrite IH|].
  rewrite IH. destruct (split_slash_cons a) as (piece & pieces & ->). done.
Qed.

Lemma ends_with_slash_inv s : ends_with_slash s = true → ∃ s', s = s' +:+ "/".
Proof.
  induction s as [|c s IH]; [done|].
  destruct s as [|c' s].
  - cbn. intros Hc. exists EmptyString. unfold is_slash in Hc.
    apply Ascii.eqb_eq in Hc as ->. done.
  - intros H. destruct (IH H) as [s' ->]. by exists (String c s').
Qed.

Lemma valid_name_kept s : valid_name s → kept_name s.
Proof. intros (? & ? & ?). by split. Qed.

Lemma valid_name_starts s : valid_name s → starts_with_slash s = false.
Proof.
  intros (_ & _ & H). destruct s as [|c s]; [done|].
  cbn in *. by apply orb_false_elim in H as [? _].
Qed.

Lemma filter_kept_split_valid s : valid_name s → filter kept_name (split_slash s) = [s].
Proof.
  intros Hs. rewrite split_slash_no_slash by apply Hs.
  rewrite filter_cons_True by by apply valid_name_kept. done.
Qed.

Lemma Path_valid_name s : valid_name s → Path s = mkPath EmptyString [s].
Proof.
  intros Hs. unfold Path. rewrite filter_kept_split_valid by done.
  f_equal. destruct Hs as (_ & _ & H).
  destruct s as [|c1 [|c2 [|c3 s]]]; cbn in *; [done|..];
    apply orb_false_elim in H as [-> _]; done.
Qed.

Lemma parse_anchor_app_name a b :
  has_slash b = false → ends_with_slash a = true →
  parse_anchor (a +:+ b) = parse_anchor a.
Proof.
  destruct a as [|c1 [|c2 [|c3 a]]], b as [|d1 [|d2 [|d3 b]]];
    cbv [String.append parse_anchor ends_with_slash has_slash];
    repeat match goal with |- context [is_slash ?c] => destruct (is_slash c) end;
    cbn; congruence.
Qed.

Lemma parse_anchor_app_sep a b :
  a ≠ EmptyString → ends_with_slash a = false →
  parse_anchor (a +:+ "/" +:+ b) = parse_anchor a.
Proof.
  destruct a as [|c1 [|c2 [|c3 a]]], b as [|d1 [|d2 [|d3 b]]];
    cbv [String.append parse_anchor ends_with_slash];
    repeat match goal with |- context [is_slash ?c] => destruct (is_slash c) end;
    cbn; congruence.
Qed.

Lemma filter_kept_split_dir s :
  filter kept_name (split_slash (s +:+ "/")) = filter kept_name (split_slash s).
Proof.
  rewrite <-(append_nil_r (s +:+ "/")), append_assoc, split_slash_app.
  rewrite filter_app. cbn. by rewrite app_nil_r.
Qed.

(** Joining an entry name to a directory path and parsing the result adds
    the name to the parsed directory path. *)
Lemma Path_os_path_join top d :
  valid_name d →
  Path (os_path_join top d) = mkPath (anchor (Path top)) (names (Path top) ++ [d]).
Proof.
  intros Hd. unfold os_path_join. rewrite valid_name_starts by done.
  destruct (decide (top = EmptyString)) as [->|Htop].
  { cbn. by rewrite Path_valid_name. }
  rewrite bool_decide_eq_false_2 by done. cbn [orb].
  destruct (ends_with_slash top) eqn:Hend; unfold Path; f_equal.
  - apply parse_anchor_app_name; [apply Hd|done].
  - destruct (ends_with_slash_inv _ Hend) as [top' ->].
    rewrite append_assoc, split_slash_app, filter_app, filter_kept_split_dir.
    by rewrite (filter_kept_split_valid d).
  - by apply parse_anchor_app_sep.
  - rewrite split_slash_app, filter_app. by rewrite (filter_kept_split_valid d).
Qed.

Lemma split_join_slash (ns : list string) :
  Forall (λ n, has_slash n = false) ns → ns ≠ [] → split_slash (join_slash ns) = ns.
Proof.
  induction 1 as [|n ns Hn Hns IH]; [done|]. intros _.
  destruct ns as [|n' ns]; [by apply split_slash_no_slash|].
  change (join_slash (n :: n' :: ns)) with (n +:+ "/" +:+ join_slash (n' :: ns)).
  rewrite split_slash_app, split_slash_no_slash, IH by done. done.
Qed.

(** Distinct lists of components render as distinct paths. *)
Lemma join_slash_inj (ns ms : list string) :
  Forall (λ n, has_slash n = false) ns → Forall (λ n, has_slash n = false) ms →
  ns ≠ [] → ms ≠ [] → join_slash ns = join_slash ms → ns = ms.
Proof.
  intros Hns Hms ?? Heq.
  rewrite <-(split_join_slash ns), <-(split_join_slash ms) by done. by rewrite Heq.
Qed.

Lemma valid_names_no_slash (ns : list string) :
  Forall valid_name ns → Forall (λ n, has_slash n = false) ns.
Proof. intros H. eapply Forall_impl; [done|]. by intros n (_ & _ & ?). Qed.

Lemma valid_names_kept (ns : list string) :
  Forall valid_name ns → filter kept_name ns = ns.
Proof.
  induction 1 as [|n ns Hn _ IH]; [done|].
  rewrite filter_cons_True by by apply valid_name_kept. by rewrite IH.
Qed.

Lemma join_slash_head (ns : list string) :
  Forall valid_name ns → ns ≠ [] →
  ∃ c s, join_slash ns = String c s ∧ is_slash c = false.
Proof.
  intros Hns ?. destruct ns as [|n ns]; [done|].
  apply Forall_cons in Hns as [(Hne & _ & Hn) _].
  destruct n as [|c n]; [done|]. cbn in Hn. apply orb_false_elim in Hn as [Hc _].
  destruct ns; cbn; eauto.
Qed.

Lemma join_slash_not_dot (ns : list string) :
  Forall valid_name ns → ns ≠ [] → join_slash ns ≠ ".".
Proof.
  intros Hns Hne Heq.
  pose proof (split_join_slash ns (valid_names_no_slash _ Hns) Hne) as Hsplit.
  rewrite Heq in Hsplit. cbn in Hsplit. subst ns.
  apply Forall_cons in Hns as [(_ & ? & _) _]. done.
Qed.
End Strings.

(** ** Parsed paths *)

(** How [pathlib] renders what it has parsed. *)
Example str_Path_trailing_separator : str (Path "missing/") = "missing".
Proof. reflexivity. Qed.

Example str_Path_redundant_parts : str (Path "a//b/./c/") = "a/b/c".
Proof. reflexivity. Qed.

Example str_Path_two_slashes : str (Path "//a") = "//a".
Proof. reflexivity. Qed.

Example str_Path_three_slashes : str (Path "///a") = "/a".
Proof. reflexivity. Qed.

Example str_Path_empty : str (Path EmptyString) = ".".
Proof. reflexivity. Qed.

Example str_Path_parent : str (Path "a/..") = "a/..".
Proof. reflexivity. Qed.

Example os_path_join_cases :
  os_path_join "/" "d" = "/d" ∧ os_path_join EmptyString "d" = "d" ∧
  os_path_join "a/" "d" = "a/d" ∧ os_path_join "a" "d" = "a/d" ∧
  os_path_join "a" "/d" = "/d".
Proof. by repeat split. Qed.

Section Paths.
Implicit Types (p : PurePath) (ns ds : list string).

Lemma Path_normal s : normal (Path s).
Proof.
  split.
  - cbn. destruct s as [|c1 [|c2 [|c3 s]]]; cbn; repeat case_match; set_solver.
  - cbn. apply Forall_forall. intros n [[??] Hin]%list_elem_of_filter.
    pose proof (split_slash_pieces s) as Hall.
    rewrite Forall_forall in Hall. by repeat split; [..|apply Hall].
Qed.

Lemma parse_anchor_plain c s : is_slash c = false → parse_anchor (String c s) = EmptyString.
Proof. intros Hc. destruct s as [|c2 [|c3 s]]; cbn; by rewrite Hc. Qed.

Lemma parse_anchor_one c s :
  is_slash c = false → parse_anchor (String slash (String c s)) = "/".
Proof. intros Hc. destruct s as [|c3 s]; cbn; by rewrite Hc. Qed.

Lemma parse_anchor_two c s :
  is_slash c = false → parse_anchor (String slash (String slash (String c s))) = "//".
Proof. intros Hc. cbn. by rewrite Hc. Qed.

(** Parsing undoes rendering. *)
Lemma Path_str p : normal p → Path (str p) = p.
Proof.
  destruct p as [a ns]. intros [Ha Hns]. cbn in Ha, Hns.
  destruct (decide (ns = [])) as [->|Hne].
  { set_unfold in Ha. destruct Ha as [->|[->|[->|[]]]]; done. }
  destruct (join_slash_head ns Hns Hne) as (c & s & Hj & Hc).
  pose proof (split_join_slash ns (valid_names_no_slash _ Hns) Hne) as Hsplit.
  assert (str (mkPath a ns) = a +:+ join_slash ns) as ->.
  { unfold str. cbn. destruct a; [|done]. by destruct ns. }
  set_unfold in Ha. destruct Ha as [->|[->|[->|[]]]]; unfold Path; f_equal.
  - change (EmptyString +:+ join_slash ns) with (join_slash ns). rewrite Hj.
    by apply parse_anchor_plain.
  - change (EmptyString +:+ join_slash ns) with (join_slash ns).
    by rewrite Hsplit, valid_names_kept.
  - rewrite Hj. by apply parse_anchor_one.
  - change ("/" +:+ join_slash ns) with (EmptyString +:+ "/" +:+ join_slash ns).
    rewrite split_slash_app, Hsplit. cbn. rewrite ?filter_cons_False by (by intros [? _]).
    by apply valid_names_kept.
  - rewrite Hj. by apply parse_anchor_two.
  - change ("//" +:+ join_slash ns) with ("/" +:+ "/" +:+ join_slash ns).
    rewrite split_slash_app, Hsplit. cbn.
    rewrite ?filter_cons_False by (by intros [? _]). by apply valid_names_kept.
Qed.

Lemma strip_prefix_app ns ds : strip_prefix ns (ns ++ ds) = Some ds.
Proof.
  induction ns as [|n ns IH]; [by destruct ds|]. cbn.
  by rewrite bool_decide_eq_true_2.
Qed.

Lemma relative_to_below a ns ds :
  relative_to (mkPath a (ns ++ ds)) (mkPath a ns) = Some (mkPath EmptyString ds).
Proof.
  unfold relative_to. cbn. rewrite bool_decide_eq_true_2 by done.
  by rewrite strip_prefix_app.
Qed.

Lemma str_relative_dot ds :
  Forall valid_name ds → str (mkPath EmptyString ds) = "." ↔ ds = [].
Proof.
  intros Hds. split; [|by intros ->].
  destruct (decide (ds = [])) as [|Hne]; [done|]. intros Heq.
  destruct (join_slash_not_dot ds Hds Hne).
  rewrite <-Heq. unfold str. cbn. by destruct ds.
Qed.

(** The path [gather_files] emits for the file [f] of the directory
    whose root-relative names are [ds]. *)
Lemma rel_path_join ds f :
  Forall valid_name ds → valid_name f →
  (if bool_decide (str (mkPath EmptyString ds) = ".") then f
   else as_posix (mkPath EmptyString ds </> f)) = join_slash (ds ++ [f]).
Proof.
  intros Hds Hf. case_bool_decide as Hdot.
  - apply str_relative_dot in Hdot as ->; done.
  - unfold joinpath. rewrite Path_valid_name by done. cbn.
    unfold as_posix, str. cbn. by destruct ds.
Qed.
End Paths.

(** ** Trees *)

Lemma node_ind (P : node → Prop) :
  P Regular → P Special →
  (∀ entries, Forall (λ e, P e.2) entries → P (Directory entries)) →
  P Unreadable →
  (∀ target, from_option P True target → P (Symlink target)) →
  ∀ n, P n.
Proof.
  intros Hr Hs Hd Hu Hl. fix IH 1. intros [| |entries| |target]; [done|done| |done|].
  - apply Hd. induction entries as [|[name child] entries IHes]; constructor;
      [apply IH|done].
  - apply Hl. destruct target; [apply IH|done].
Qed.

Lemma wf_node_Directory entries :
  wf_node (Directory entries) = true ↔
  NoDup entries.*1 ∧ Forall (λ e, valid_name e.1 ∧ wf_node e.2 = true) entries.
Proof.
  cbn [wf_node]. rewrite andb_true_iff, bool_decide_eq_true, forallb_forall, Forall_forall.
  apply and_iff_compat_l. split; intros H e He.
  - apply list_elem_of_In, H in He.
    apply andb_true_iff in He as [?%bool_decide_eq_true ?]. done.
  - apply list_elem_of_In, H in He as [??].
    apply andb_true_iff. by rewrite bool_decide_eq_true.
Qed.

Lemma scan_dirs_valid entries :
  Forall (λ e, valid_name e.1 ∧ wf_node e.2 = true) entries →
  Forall valid_name (scan_nondirs entries).
Proof.
  intros H. unfold scan_nondirs. apply Forall_fmap, Forall_forall.
  intros e [_ He]%list_elem_of_filter. rewrite Forall_forall in H. by apply H.
Qed.

Lemma not_dir_walk_paths exclude_dirs ds n :
  is_dir n = false ∨ islink n = true → walk_paths exclude_dirs ds n = [].
Proof. intros [H|H]; destruct n; cbn in *; congruence. Qed.

Lemma not_dir_walk_scans exclude_dirs top n :
  is_dir n = false ∨ islink n = true → walk_scans exclude_dirs top n = [].
Proof. intros [H|H]; destruct n; cbn in *; congruence. Qed.

Lemma scan_dirs_cons e entries :
  scan_dirs (e :: entries) =
    if is_dir e.2 then e.1 :: scan_dirs entries else scan_dirs entries.
Proof.
  unfold scan_dirs. destruct (is_dir e.2) eqn:He.
  - by rewrite filter_cons_True.
  - rewrite filter_cons_False; [done|]. by rewrite He.
Qed.

(** ** The walk, driven by an arbitrary loop body *)

Section WalkFacts.
Context {A : Type}.
Implicit Types (rec : string → node → walk_state A → option (walk_state A)).

(** Among distinct names, looking a name up finds its entry. *)
Lemma walk_child_found rec new_path d c entries st :
  NoDup entries.*1 → (d, c) ∈ entries →
  walk_child rec new_path d entries st =
    if islink c then Some st else rec new_path c st.
Proof.
  induction entries as [|[name child] entries IH]; [by intros _ ?%elem_of_nil|].
  rewrite fmap_cons, NoDup_cons. intros [Hfresh Hnodup] Hin. cbn.
  apply elem_of_cons in Hin as [[= <- <-]|Hin].
  - by rewrite bool_decide_eq_true_2.
  - rewrite bool_decide_eq_false_2; [by apply IH|].
    intros ->. apply Hfresh. apply list_elem_of_fmap. by exists (d, c).
Qed.
End WalkFacts.

(** ** The loop of gather_files *)

Section Gather.
Variables (exclude_dirs : gset string) (a : string) (ns : list string).

Lemma gather_body_spec top ds dirnames filenames results :
  Path top = mkPath a (ns ++ ds) →
  Forall valid_name ds → Forall valid_name filenames →
  gather_body (mkPath a ns) exclude_dirs top dirnames filenames results =
    Some (filter (λ d, d ∉ exclude_dirs) dirnames,
          results ++ ((λ f, join_slash (ds ++ [f])) <$> filenames)).
Proof.
  intros Htop Hds Hfs. unfold gather_body.
  rewrite Htop, relative_to_below. cbn [mbind option_bind]. do 2 f_equal.
  revert results.
  induction Hfs as [|f filenames Hf _ IH]; intros results; cbn [fold_left fmap list_fmap].
  - by rewrite app_nil_r.
  - rewrite IH, rel_path_join by done. by rewrite <-app_assoc.
Qed.

(** The descent into the pruned [dirnames] of a directory, given what the
    walk does in each sub-directory. *)
Lemma walk_dirs_gather rec top ds entries :
  NoDup entries.*1 →
  ∀ sel, sel ⊆ entries →
  Forall (λ e, ∀ st : walk_state (list string),
            is_dir e.2 = true → islink e.2 = false →
            rec (os_path_join top e.1) e.2 st =
              Some (mkWalk
                (scanned st ++ walk_scans exclude_dirs (os_path_join top e.1) e.2)
                (acc st ++ (join_slash <$> walk_paths exclude_dirs (ds ++ [e.1]) e.2))))
         sel →
  ∀ st, walk_dirs rec top entries
          (filter (λ d, d ∉ exclude_dirs) (scan_dirs sel)) st =
    Some (mkWalk
      (scanned st ++
         (sel ≫= λ e, if bool_decide (e.1 ∉ exclude_dirs)
                      then walk_scans exclude_dirs (os_path_join top e.1) e.2 else []))
      (acc st ++
         (join_slash <$>
            (sel ≫= λ e, if bool_decide (e.1 ∉ exclude_dirs)
                         then walk_paths exclude_dirs (ds ++ [e.1]) e.2 else [])))).
Proof.
  intros Hnodup sel. induction sel as [|e sel IH]; intros Hsub Hrec st.
  { cbn. rewrite !app_nil_r. by destruct st. }
  apply Forall_cons in Hrec as [He Hrec].
  assert (e ∈ entries) as Hin by (apply Hsub; left).
  assert (sel ⊆ entries) as Hsub' by (intros x ?; apply Hsub; by right).
  rewrite scan_dirs_cons. rewrite !bind_cons.
  destruct (is_dir e.2) eqn:Hdir; last first.
  { rewrite not_dir_walk_paths, not_dir_walk_scans by auto.
    rewrite !Tauto.if_same. by apply IH. }
  case_bool_decide as Hex; last first.
  { rewrite filter_cons_False by (by intros ?). by apply IH. }
  rewrite filter_cons_True by done. cbn [walk_dirs].
  destruct e as [d c]; cbn [fst snd] in *.
  rewrite (walk_child_found _ _ d c) by done.
  destruct (islink c) eqn:Hlink.
  { rewrite not_dir_walk_paths, not_dir_walk_scans by auto. by apply IH. }
  rewrite He by done. cbn [mbind option_bind].
  rewrite IH by done. cbn [scanned acc]. by rewrite fmap_app, <-!app_assoc.
Qed.

(** What the walk, driven by the loop body of [gather_files], leaves
    behind below a directory of a well-formed tree. *)
Lemma walk_from_gather n :
  wf_node n = true →
  ∀ top ds st,
    Path top = mkPath a (ns ++ ds) → Forall valid_name ds →
    is_dir n = true → islink n = false →
    walk_from (gather_body (mkPath a ns) exclude_dirs) top n st =
      Some (mkWalk (scanned st ++ walk_scans exclude_dirs top n)
                   (acc st ++ (join_slash <$> walk_paths exclude_dirs ds n))).
Proof.
  induction n as [| |entries IH| |target IH] using node_ind; [done|done| | |done].
  2: { intros. cbn. unfold log_scandir. by rewrite app_nil_r. }
  intros [Hnodup Hwf]%wf_node_Directory top ds st Htop Hds _ _.
  cbn [walk_from]. unfold log_scandir at 1. cbn [acc scanned].
  rewrite (gather_body_spec top ds) by eauto using scan_dirs_valid.
  cbn [mbind option_bind].
  rewrite (walk_dirs_gather _ top ds entries Hnodup entries); [| done |].
  - cbn [acc scanned walk_scans walk_paths].
    by rewrite fmap_app, <-list_fmap_compose, <-!app_assoc.
  - rewrite Forall_forall in IH, Hwf. apply Forall_forall.
    intros e He st' Hdir Hlink. destruct (Hwf e He) as [Hname Hsub].
    apply IH; [done..| |by apply Forall_app_2; [|constructor]|done|done].
    rewrite Path_os_path_join, Htop by done. cbn. by rewrite <-app_assoc.
Qed.
End Gather.

(** ** What gather_files computes *)

Section GatherFiles.
Variables (w : world) (root : PurePath) (exclude_dirs : gset string).

Lemma gather_walk_directory entries :
  stat w (str (resolve w root)) = Some (Directory entries) →
  wf_node (Directory entries) = true →
  gather_walk w root exclude_dirs =
    Some (mkWalk (walk_scans exclude_dirs (str (resolve w root)) (Directory entries))
                 (join_slash <$> walk_paths exclude_dirs [] (Directory entries))).
Proof.
  intros Hstat Hwf. unfold gather_walk, os_walk. rewrite Hstat.
  pose proof (Path_normal (realpath w (str root))) as Hnormal.
  fold (resolve w root) in Hnormal.
  destruct (resolve w root) as [a ns] eqn:Hroot.
  rewrite (walk_from_gather exclude_dirs a ns _ Hwf _ []); [done| |done..].
  rewrite app_nil_r. by apply Path_str.
Qed.

Lemma gather_files_directory entries :
  stat w (str (resolve w root)) = Some (Directory entries) →
  wf_node (Directory entries) = true →
  gather_files w root exclude_dirs =
    Some (sort (join_slash <$> walk_paths exclude_dirs [] (Directory entries))).
Proof.
  intros Hstat Hwf. unfold gather_files.
  by rewrite (gather_walk_directory entries).
Qed.

(** When the root is no directory proper, [os.scandir] fails on it and
    the walk yields nothing. *)
Lemma gather_walk_no_directory :
  (∀ entries, stat w (str (resolve w root)) ≠ Some (Directory entries)) →
  gather_walk w root exclude_dirs = Some (mkWalk [str (resolve w root)] []).
Proof.
  intros Hno. unfold gather_walk, os_walk.
  destruct (stat w (str (resolve w root))) as [[]|] eqn:Hstat; try done.
  by destruct (Hno entries).
Qed.

(** [gather_files] raises nothing on a well-formed tree. *)
Lemma gather_files_total :
  (∀ n, stat w (str (resolve w root)) = Some n → wf_node n = true) →
  is_Some (gather_files w root exclude_dirs).
Proof.
  intros Hwf. destruct (stat w (str (resolve w root))) as [n|] eqn:Hstat.
  - destruct n as [| |entries| |target].
    3: { rewrite (gather_files_directory entries); eauto. }
    all: unfold gather_files; rewrite gather_walk_no_directory; [by eexists|];
      intros entries; by rewrite Hstat.
  - unfold gather_files. rewrite gather_walk_no_directory; [by eexists|].
    by rewrite Hstat.
Qed.
End GatherFiles.

(** ** The listing, entry by entry *)

Lemma elem_of_scan_nondirs f entries :
  f ∈ scan_nondirs entries ↔ ∃ n, (f, n) ∈ entries ∧ is_dir n = false.
Proof.
  unfold scan_nondirs. rewrite list_elem_of_fmap. split.
  - intros ([f' n] & -> & [? ?]%list_elem_of_filter). eauto.
  - intros (n & ? & ?). exists (f, n). split; [done|]. by apply list_elem_of_filter.
Qed.

Section Listed.
Variable exclude_dirs : gset string.

Lemma walk_paths_listed n ds p :
  p ∈ walk_paths exclude_dirs ds n →
  ∃ entries q, n = Directory entries ∧ p = ds ++ q ∧ listed exclude_dirs entries q.
Proof.
  revert ds p.
  induction n as [| |entries IH| |target IH] using node_ind; intros ds p;
    cbn [walk_paths]; try by intros ?%elem_of_nil.
  rewrite elem_of_app, list_elem_of_fmap, list_elem_of_bind.
  intros [(f & -> & Hf)|([d c] & Hp & He)].
  - apply elem_of_scan_nondirs in Hf as (n & ? & ?).
    exists entries, [f]. eauto using listed_here.
  - cbn [fst snd] in Hp. case_bool_decide; [|by apply elem_of_nil in Hp].
    rewrite Forall_forall in IH.
    destruct (IH _ He _ _ Hp) as (sub & q & Hc & -> & Hq). cbn in Hc. subst c.
    exists entries, (d :: q). split; [done|].
    split; [by rewrite <-app_assoc|]. by eapply listed_below.
Qed.

Lemma listed_walk_paths entries q :
  listed exclude_dirs entries q →
  ∀ ds, ds ++ q ∈ walk_paths exclude_dirs ds (Directory entries).
Proof.
  induction 1 as [entries f n Hin Hdir|entries d sub p Hin Hex _ IH]; intros ds;
    cbn [walk_paths]; rewrite elem_of_app.
  - left. apply list_elem_of_fmap. exists f. split; [done|].
    apply elem_of_scan_nondirs. eauto.
  - right. apply list_elem_of_bind. exists (d, Directory sub). split; [|done].
    cbn [fst snd]. rewrite bool_decide_eq_true_2 by done.
    specialize (IH (ds ++ [d])). by rewrite <-app_assoc in IH.
Qed.

Lemma elem_of_walk_paths entries p :
  p ∈ walk_paths exclude_dirs [] (Directory entries) ↔ listed exclude_dirs entries p.
Proof.
  split.
  - intros (es & q & [= <-] & -> & ?)%walk_paths_listed. done.
  - intros H. by apply (listed_walk_paths _ _ H []).
Qed.
End Listed.

(** ** Sorting *)

(** [String.le] is the order of Python's [str]: the empty string first,
    then by the code of the first character, then by the rest. *)
Lemma string_le_empty s : String.le EmptyString s.
Proof. by destruct s. Qed.

Lemma string_le_cons_empty c s : ¬ String.le (String c s) EmptyString.
Proof. by intros ?. Qed.

Lemma string_le_cons c1 s1 c2 s2 :
  String.le (String c1 s1) (String c2 s2) ↔
  (N_of_ascii c1 < N_of_ascii c2)%N ∨ (c1 = c2 ∧ String.le s1 s2).
Proof.
  unfold String.le, String.leb. cbn [String.compare]. unfold Ascii.compare.
  destruct (N.compare_spec (N_of_ascii c1) (N_of_ascii c2)) as [Heq|Hlt|Hgt].
  - assert (c1 = c2) as -> by (by rewrite <-(ascii_N_embedding c1), Heq, ascii_N_embedding).
    split; [by right|]. intros [?|[_ ?]]; [lia|done].
  - split; [by left|done].
  - split; [done|]. intros [?|[-> _]]; lia.
Qed.

Lemma sort_sorted results : StronglySorted String.le (sort results).
Proof. apply StronglySorted_merge_sort; apply _. Qed.

Lemma sort_perm results : sort results ≡ₚ results.
Proof. apply merge_sort_Permutation. Qed.

Lemma elem_of_sort s results : s ∈ sort results ↔ s ∈ results.
Proof. by rewrite sort_perm. Qed.

(** A list has one sorted arrangement. *)
Lemma sort_unique l1 l2 : l1 ≡ₚ l2 → sort l1 = sort l2.
Proof.
  intros Hperm. apply (Sorted_unique String.le).
  - apply Sorted_merge_sort; apply _.
  - apply Sorted_merge_sort; apply _.
  - by rewrite !sort_perm.
Qed.

(** ** Path resolution in a well-formed tree *)

Lemma wf_node_dir_entries n sub :
  wf_node n = true → dir_entries n = Some sub → wf_node (Directory sub) = true.
Proof.
  induction n as [| |entries _| |[t|] IH] using node_ind;
    cbn [dir_entries]; intros Hwf Hsub; simplify_eq; auto.
Qed.

Lemma wf_node_entry entries d n :
  wf_node (Directory entries) = true → (d, n) ∈ entries →
  valid_name d ∧ wf_node n = true.
Proof.
  intros [_ Hall]%wf_node_Directory Hin. rewrite Forall_forall in Hall.
  by apply (Hall (d, n)).
Qed.

Lemma reach_valid entries p n :
  reach entries p n → wf_node (Directory entries) = true →
  Forall valid_name p ∧ wf_node n = true.
Proof.
  induction 1 as [entries d n Hin|entries d c sub p n Hin Hsub _ IH]; intros Hwf.
  - destruct (wf_node_entry _ _ _ Hwf Hin). split; [|done]. by apply Forall_singleton.
  - destruct (wf_node_entry _ _ _ Hwf Hin) as [Hd Hc].
    destruct IH as [Hp Hn]; [by eapply wf_node_dir_entries|].
    split; [|done]. by apply Forall_cons.
Qed.

Lemma reach_nonempty entries p n : reach entries p n → p ≠ [].
Proof. by destruct 1. Qed.

Lemma entry_unique (entries : list (string * node)) d c1 c2 :
  NoDup entries.*1 → (d, c1) ∈ entries → (d, c2) ∈ entries → c1 = c2.
Proof.
  induction entries as [|[name child] entries IH]; [by intros _ ?%elem_of_nil|].
  rewrite fmap_cons, NoDup_cons. intros [Hfresh Hnodup] H1 H2.
  assert (∀ c, (name, c) ∈ entries → False) as Hno.
  { intros c Hc. apply Hfresh, list_elem_of_fmap. by exists (name, c). }
  apply elem_of_cons in H1 as [H1|H1]; apply elem_of_cons in H2 as [H2|H2];
    simplify_eq; eauto.
  - by destruct (Hno c2).
  - by destruct (Hno c1).
Qed.

(** Among distinct names a path resolves to one entry. *)
Lemma reach_functional entries p n1 n2 :
  reach entries p n1 → wf_node (Directory entries) = true →
  reach entries p n2 → n1 = n2.
Proof.
  assert (∀ es d c1 c2, wf_node (Directory es) = true →
            (d, c1) ∈ es → (d, c2) ∈ es → c1 = c2) as Hfun.
  { intros es d c1 c2 [Hnodup _]%wf_node_Directory H1 H2.
    by eapply entry_unique. }
  intros H1. revert n2.
  induction H1 as [entries d n Hin|entries d c sub p n Hin Hsub Hp IH];
    intros n2 Hwf H2; inversion H2; simplify_eq.
  - by eapply Hfun.
  - by destruct (reach_nonempty _ _ _ ltac:(eassumption)).
  - by destruct (reach_nonempty _ _ _ Hp).
  - assert (c = c0) as <- by by eapply Hfun.
    simplify_eq. apply IH; [|done].
    eapply wf_node_dir_entries; [|done]. by eapply wf_node_entry.
Qed.

Section ListedFacts.
Variable exclude_dirs : gset string.

Lemma listed_reach entries p :
  listed exclude_dirs entries p →
  ∃ n, reach entries p n ∧ is_dir n = false.
Proof.
  induction 1 as [entries f n Hin Hdir|entries d sub p Hin Hex _ (n & Hp & Hn)].
  - exists n. eauto using reach_here.
  - exists n. split; [|done]. by eapply reach_below.
Qed.

Lemma listed_valid entries p :
  listed exclude_dirs entries p → wf_node (Directory entries) = true →
  Forall valid_name p.
Proof.
  intros (n & Hp & _)%listed_reach Hwf. by destruct (reach_valid _ _ _ Hp Hwf).
Qed.

Lemma listed_nonempty entries p : listed exclude_dirs entries p → p ≠ [].
Proof. by destruct 1. Qed.

(** Every directory on the way to a listed entry is a directory proper
    whose name is not excluded. *)
Lemma listed_through entries pre d rest :
  listed exclude_dirs entries (pre ++ d :: rest) → rest ≠ [] →
  (d ∉ exclude_dirs) ∧ (∃ sub, reach entries (pre ++ [d]) (Directory sub)).
Proof.
  revert entries. induction pre as [|d' pre IH]; intros entries Hl Hrest.
  - inversion Hl; simplify_eq. split; [done|]. eauto using reach_here.
  - inversion Hl as [|? ? sub ? Hin Hex Hsub]; simplify_eq.
    { by destruct pre. }
    destruct (IH _ Hsub Hrest) as [? [sub' ?]]. split; [done|].
    exists sub'. by eapply (reach_below _ _ (Directory sub)).
Qed.
End ListedFacts.

Lemma join_slash_snoc ds f : join_slash (ds ++ [f]) = emitted ds f.
Proof.
  unfold emitted. induction ds as [|d ds IH]; [done|].
  rewrite decide_False by done.
  change ((d :: ds) ++ [f]) with (d :: (ds ++ [f])).
  assert (join_slash (d :: (ds ++ [f])) = d +:+ "/" +:+ join_slash (ds ++ [f])) as ->.
  { by destruct ds. }
  rewrite IH. destruct ds as [|d' ds]; [done|].
  rewrite decide_False by done.
  change (join_slash (d :: d' :: ds)) with (d +:+ "/" +:+ join_slash (d' :: ds)).
  by rewrite !append_assoc.
Qed.

(** [sort] is determined by what [list.sort] promises: a sorted arrangement
    of the same elements. *)
Lemma sort_characterised results sorted :
  Sorted String.le sorted → sorted ≡ₚ results → sorted = sort results.
Proof.
  intros Hsorted Hperm. apply (Sorted_unique String.le); [done| |].
  - apply Sorted_merge_sort; apply _.
  - by rewrite sort_perm.
Qed.

(** ** No path is listed twice *)

Lemma scan_nondirs_NoDup entries : NoDup entries.*1 → NoDup (scan_nondirs entries).
Proof.
  intros Hnodup. unfold scan_nondirs. eapply sublist_NoDup; [done|].
  apply fmap_sublist, sublist_filter.
Qed.

Lemma walk_paths_below exclude_dirs ds n p :
  p ∈ walk_paths exclude_dirs ds n → ∃ q, p = ds ++ q ∧ q ≠ [].
Proof.
  intros (entries & q & _ & -> & Hq)%walk_paths_listed.
  exists q. split; [done|]. by eapply listed_nonempty.
Qed.

Lemma walk_paths_below_if exclude_dirs ds n p (b : bool) :
  p ∈ (if b then walk_paths exclude_dirs ds n else []) → ∃ q, p = ds ++ q ∧ q ≠ [].
Proof. destruct b; [apply walk_paths_below|by intros ?%elem_of_nil]. Qed.

Lemma walk_paths_NoDup exclude_dirs n :
  wf_node n = true → ∀ ds, NoDup (walk_paths exclude_dirs ds n).
Proof.
  induction n as [| |entries IH| |target _] using node_ind; intros Hwf ds;
    cbn [walk_paths]; try by apply NoDup_nil.
  apply wf_node_Directory in Hwf as [Hnodup Hwf]. apply NoDup_app. split_and!.
  - apply NoDup_fmap_2_strong; [|by apply scan_nondirs_NoDup].
    intros f1 f2 _ _ Heq. by apply app_inv_head in Heq as [= ->].
  - intros p (f & -> & _)%list_elem_of_fmap ([d c] & Hin & _)%list_elem_of_bind.
    apply walk_paths_below_if in Hin as (q & Heq & Hq).
    rewrite <-app_assoc in Heq. apply app_inv_head in Heq. by destruct q.
  - apply NoDup_bind; [| |by eapply NoDup_fmap_1].
    + intros [d1 c1] [d2 c2] p H1 H2 Hp1 Hp2. cbn [fst snd] in *.
      apply walk_paths_below_if in Hp1 as (q1 & -> & _).
      apply walk_paths_below_if in Hp2 as (q2 & Heq & _).
      rewrite <-!app_assoc in Heq. apply app_inv_head in Heq as [= -> _].
      f_equal. by eapply entry_unique.
    + intros [d c] Hin. cbn [fst snd]. case_bool_decide; [|by apply NoDup_nil].
      rewrite Forall_forall in IH, Hwf. apply (IH _ Hin). by apply (Hwf _ Hin).
Qed.

(** ** Membership in the result *)

Section Result.
Variables (w : world) (root : PurePath) (exclude_dirs : gset string).
Variables (entries : list (string * node)) (files : list string).
Hypothesis Hstat : stat w (str (resolve w root)) = Some (Directory entries).
Hypothesis Hwf : wf_node (Directory entries) = true.
Hypothesis Hfiles : gather_files w root exclude_dirs = Some files.

Lemma gather_files_result :
  files = sort (join_slash <$> walk_paths exclude_dirs [] (Directory entries)).
Proof using Hstat Hwf Hfiles.
  rewrite (gather_files_directory _ _ _ entries) in Hfiles by done. congruence.
Qed.

Lemma elem_of_gather_files s :
  s ∈ files ↔ ∃ p, listed exclude_dirs entries p ∧ s = join_slash p.
Proof using Hstat Hwf Hfiles.
  rewrite gather_files_result, elem_of_sort, list_elem_of_fmap.
  split; intros (p & ? & ?); exists p; by rewrite ?elem_of_walk_paths in *.
Qed.

Lemma gather_files_NoDup : NoDup files.
Proof using Hstat Hwf Hfiles.
  rewrite gather_files_result, sort_perm.
  apply NoDup_fmap_2_strong; [|by apply walk_paths_NoDup].
  intros p q Hp%elem_of_walk_paths Hq%elem_of_walk_paths.
  apply join_slash_inj; eauto using listed_nonempty;
    by eapply valid_names_no_slash, listed_valid.
Qed.

(** A path with valid names is in the result only as a listed path. *)
Lemma gather_files_listed p :
  Forall valid_name p → p ≠ [] → join_slash p ∈ files → listed exclude_dirs entries p.
Proof using Hstat Hwf Hfiles.
  intros Hp Hne (q & Hq & Heq)%elem_of_gather_files.
  apply join_slash_inj in Heq as ->; eauto using valid_names_no_slash, listed_nonempty.
  apply valid_names_no_slash. by eapply listed_valid.
Qed.

(** Nothing below a directory, or a link to one, whose name is excluded
    or that is not a directory proper is in the result. *)
Lemma gather_files_not_below pre d c sub rest n :
  reach entries (pre ++ [d]) c → dir_entries c = Some sub → reach sub rest n →
  d ∈ exclude_dirs ∨ islink c = true →
  join_slash (pre ++ d :: rest) ∉ files.
Proof using Hstat Hwf Hfiles.
  intros Hc Hsub Hrest Hskip Hin.
  destruct (reach_valid _ _ _ Hc Hwf) as [Hpre Hwfc].
  destruct (reach_valid _ _ _ Hrest) as [Hvalid _]; [by eapply wf_node_dir_entries|].
  apply Forall_app in Hpre as [Hpre Hd].
  apply gather_files_listed in Hin.
  - apply listed_through in Hin as [Hex (sub' & Hdir)]; [|by eapply reach_nonempty].
    destruct Hskip as [?|Hlink]; [done|].
    by rewrite (reach_functional _ _ _ _ Hc Hwf Hdir) in Hlink.
  - apply Forall_app. split; [done|]. apply Forall_cons.
    split; [by inversion_clear Hd|done].
  - by destruct pre.
Qed.
End Result.

(** ** The directories the walk scans *)

Lemma basename_os_path_join top d : valid_name d → basename (os_path_join top d) = d.
Proof.
  intros Hd. unfold basename, os_path_join. rewrite valid_name_starts by done.
  assert (split_slash d = [d]) as Hsplit by (apply split_slash_no_slash, Hd).
  destruct (decide (top = EmptyString)) as [->|Htop].
  { rewrite bool_decide_eq_true_2 by done. cbn [orb].
    change (EmptyString +:+ d) with d. by rewrite Hsplit. }
  rewrite bool_decide_eq_false_2 by done. cbn [orb].
  destruct (ends_with_slash top) eqn:Hend.
  - destruct (ends_with_slash_inv _ Hend) as [top' ->].
    by rewrite append_assoc, split_slash_app, Hsplit, last_snoc.
  - by rewrite split_slash_app, Hsplit, last_snoc.
Qed.

Lemma Path_foldl_os_path_join top ds :
  Forall valid_name ds →
  Path (foldl os_path_join top ds) = mkPath (anchor (Path top)) (names (Path top) ++ ds).
Proof.
  induction ds as [|d ds IH] using rev_ind; intros Hds.
  - rewrite app_nil_r. cbn [foldl]. by destruct (Path top).
  - apply Forall_app in Hds as [Hds Hd]. inversion_clear Hd as [|?? Hd' _].
    rewrite foldl_snoc, Path_os_path_join, IH by done. cbn. by rewrite <-app_assoc.
Qed.

(** The directories below [top] have pairwise distinct paths. *)
Lemma foldl_os_path_join_inj top ds ds' :
  Forall valid_name ds → Forall valid_name ds' →
  foldl os_path_join top ds = foldl os_path_join top ds' → ds = ds'.
Proof.
  intros Hds Hds' Heq. apply (f_equal Path) in Heq.
  rewrite !Path_foldl_os_path_join in Heq by done.
  injection Heq as Heq. by apply app_inv_head in Heq.
Qed.

Lemma walk_scans_below exclude_dirs n :
  wf_node n = true →
  ∀ top dirpath, dirpath ∈ walk_scans exclude_dirs top n →
    ∃ ds, dirpath = foldl os_path_join top ds ∧
          Forall (λ d, (d ∉ exclude_dirs) ∧ valid_name d) ds.
Proof.
  induction n as [| |entries IH| |target IH] using node_ind; intros Hwf top dirpath;
    cbn [walk_scans]; try by intros ?%elem_of_nil.
  2: { intros ->%list_elem_of_singleton. by exists []. }
  intros [->|([d c] & Hin & He)%list_elem_of_bind]%elem_of_cons; [by exists []|].
  cbn [fst snd] in Hin. case_bool_decide; [|by apply elem_of_nil in Hin].
  destruct (wf_node_entry _ _ _ Hwf He) as [Hd Hc].
  rewrite Forall_forall in IH.
  destruct (IH _ He Hc _ _ Hin) as (ds & -> & Hds).
  exists (d :: ds). split; [done|]. by apply Forall_cons.
Qed.

(** ** Printing *)

Lemma print_all_fold files stdout :
  fold_left (λ out p, print p out) files stdout = stdout ++ files.
Proof.
  revert stdout. induction files as [|p files IH]; intros stdout; cbn [fold_left].
  - by rewrite app_nil_r.
  - rewrite IH. unfold print. by rewrite <-app_assoc.
Qed.

Lemma print_only_example_fold (found : gset string) allowlist stdout :
  fold_left (λ out p, if bool_decide (p ∈ found) then print p out else out)
    allowlist stdout = stdout ++ filter (λ p, p ∈ found) allowlist.
Proof.
  revert stdout.
  induction allowlist as [|p allowlist IH]; intros stdout; cbn [fold_left].
  - by rewrite filter_nil, app_nil_r.
  - rewrite IH. case_bool_decide.
    + rewrite filter_cons_True by done. unfold print. by rewrite <-app_assoc.
    + by rewrite filter_cons_False.
Qed.

Lemma print_only_example_spec w root exclude_dirs stdout files :
  gather_files w root exclude_dirs = Some files →
  print_only_example w root exclude_dirs stdout =
    Some (stdout ++ filter (λ p, p ∈ files) EXAMPLE_FILES).
Proof.
  intros Hfiles. unfold print_only_example. rewrite Hfiles. cbn [mbind option_bind].
  rewrite print_only_example_fold. do 2 f_equal.
  apply list_filter_iff. intros p. apply elem_of_list_to_set.
Qed.

Lemma print_all_files_spec w root exclude_dirs stdout files :
  gather_files w root exclude_dirs = Some files →
  print_all_files w root exclude_dirs stdout = Some (stdout ++ files).
Proof.
  intros Hfiles. unfold print_all_files. rewrite Hfiles. cbn [mbind option_bind].
  by rewrite print_all_fold.
Qed.

(** ** The command line *)

(** The three outcomes of the root check, in terms of what is there. *)
Lemma root_is_bad_false w p :
  root_is_bad w p = Some false ↔ ∃ n, stat w (str p) = Some n ∧ is_dir n = true.
Proof.
  unfold root_is_bad, path_exists, path_is_dir.
  destruct (stat w (str p)) as [n|]; cbn.
  - destruct (is_dir n) eqn:Hdir; split; [by eauto|done|done|].
    intros (n' & [= <-] & ?). congruence.
  - destruct (denied w (str p)); split; try done; by intros (? & ? & _).
Qed.



(** [main] depends on the defaults and on [--ignore] through their union
    only. *)
Lemma main_with_exclude defaults defaults' args args' w :
  root args = root args' → only_example args = only_example args' →
  defaults ∪ list_to_set (ignore args) = defaults' ∪ list_to_set (ignore args') →
  main_with defaults args w = main_with defaults' args' w.
Proof. intros Hroot Hmode Hex. unfold main_with. by rewrite Hroot, Hmode, Hex. Qed.


Lemma main_with_good_root defaults args w files :
  root_is_bad w (Path (root args)) = Some false →
  gather_files w (Path (root args)) (defaults ∪ list_to_set (ignore args)) = Some files →
  main_with defaults args w =
    (if only_example args then filter (λ p, p ∈ files) EXAMPLE_FILES else files, 0%Z).
Proof.
  intros Hgood Hfiles. unfold main_with. rewrite Hgood.
  destruct (only_example args).
  - by rewrite (print_only_example_spec _ _ _ _ files).
  - by rewrite (print_all_files_spec _ _ _ _ files).
Qed.


(** ** The directories the walk enters *)

Lemma entered_walk_scans exclude_dirs entries ds :
  entered exclude_dirs entries ds →
  ∀ top, foldl os_path_join top ds ∈ walk_scans exclude_dirs top (Directory entries).
Proof.
  induction 1 as [entries|entries d sub ds Hin Hex _ IH]; intros top;
    cbn [walk_scans foldl]; [by left|right].
  apply list_elem_of_bind. exists (d, Directory sub). split; [|done].
  cbn [fst snd]. rewrite bool_decide_eq_true_2 by done. apply IH.
Qed.

(** ** Enumeration order *)

Section SameTree.
Variable exclude_dirs : gset string.

Lemma same_tree_is_dir n n' : same_tree n n' → is_dir n = is_dir n'.
Proof.
  revert n'. induction n as [| |entries _| |target IH] using node_ind;
    intros n'; inversion 1 as [| | | |? ? Htarget]; simplify_eq; try done.
  destruct Htarget; [|done]. cbn in *. auto.
Qed.

Lemma same_tree_scan_nondirs shuffled entries' :
  Forall2 (λ e e', e.1 = e'.1 ∧ same_tree e.2 e'.2) shuffled entries' →
  scan_nondirs shuffled = scan_nondirs entries'.
Proof.
  unfold scan_nondirs.
  induction 1 as [|[d c] [d' c'] es es' [Hname Hsame] _ IH]; [done|].
  cbn in Hname. subst d'. apply same_tree_is_dir in Hsame. cbn in Hsame.
  destruct (is_dir c) eqn:Hdir.
  - rewrite !filter_cons_False; [done|cbn; congruence..].
  - rewrite !filter_cons_True; [|cbn; congruence..]. cbn. by rewrite IH.
Qed.

Lemma same_tree_walk_paths n n' :
  same_tree n n' →
  ∀ ds, walk_paths exclude_dirs ds n ≡ₚ walk_paths exclude_dirs ds n'.
Proof.
  revert n'. induction n as [| |entries IH| |target _] using node_ind;
    intros n' Hsame; inversion Hsame as [| |? shuffled entries' Hperm Hall| |];
    simplify_eq; clear Hsame; intros ds; try done.
  cbn [walk_paths]. unfold scan_nondirs at 1. rewrite Hperm. fold (scan_nondirs shuffled).
  rewrite (same_tree_scan_nondirs _ _ Hall). apply Permutation_app_head.
  rewrite Hperm in IH. clear Hperm.
  induction Hall as [|[d c] [d' c'] es es' [Hname Hsame] _ IHall]; [done|].
  cbn in Hname. subst d'. apply Forall_cons in IH as [IHc IHes].
  rewrite !bind_cons. cbn [fst snd] in *.
  apply Permutation_app; [|by apply IHall]. case_bool_decide; [|done]. by apply IHc.
Qed.

Lemma same_tree_names (shuffled entries' : list (string * node)) :
  Forall2 (λ e e', e.1 = e'.1 ∧ same_tree e.2 e'.2) shuffled entries' →
  shuffled.*1 = entries'.*1.
Proof. induction 1 as [|?? ?? [? _] _ IH]; [done|]. cbn. congruence. Qed.

(** A well-formed tree stays well-formed in any enumeration order. *)
Lemma same_tree_wf n n' : same_tree n n' → wf_node n = true → wf_node n' = true.
Proof.
  revert n'. induction n as [| |entries IH| |target IH] using node_ind;
    intros n' Hsame; inversion Hsame as [| |? shuffled entries' Hperm Hall| |? ? Htarget];
    simplify_eq; clear Hsame; try done.
  - rewrite !wf_node_Directory. rewrite Hperm. rewrite Hperm in IH. clear Hperm.
    rewrite (same_tree_names _ _ Hall). intros [Hnodup Hwf]. split; [done|].
    clear Hnodup. induction Hall as [|[d c] [d' c'] es es' [Hname Hsame] _ IHall];
      [done|].
    cbn in Hname. subst d'. apply Forall_cons in IH as [IHc IHes].
    apply Forall_cons in Hwf as [[Hd Hc] Hwf]. cbn [fst snd] in *.
    apply Forall_cons. split; [split; [done|by apply IHc]|by apply IHall].
  - destruct Htarget; [|done]. cbn in *. auto.
Qed.
End SameTree.

(** [gather_files] returns a sorted list whenever it returns. *)
Lemma gather_files_always_sorted w root exclude_dirs files :
  gather_files w root exclude_dirs = Some files → StronglySorted String.le files.
Proof.
  unfold gather_files. destruct (gather_walk w root exclude_dirs); [|done].
  intros [= <-]. apply sort_sorted.
Qed.

(** ** The scenarios of the specification *)

(** What the walk meets in the scratch project: the link [vendor] is among
    the directory names of the root but is not scanned, the pipe and the
    dangling link are among its file names, and the unreadable directory is
    handed to [os.scandir] to no effect. *)
Example site_walk :
  gather_walk site_world (Path ".") DEFAULT_EXCLUDE_DIRS =
    Some (mkWalk
      ["/srv/build"; "/srv/build/src"; "/srv/build/src/lib"; "/srv/build/private"]
      ["package.json"; "events"; "latest"; "README_SUBTASK1.md"; "foo.txt";
       "src/main.tsx"; "src/App.tsx"; "src/lib/supabaseClient.ts"]).
Proof. reflexivity. Qed.

Lemma site_entries_same_tree :
  same_tree (Directory site_entries) (Directory site_entries_shuffled).
Proof. unfold site_entries, site_entries_shuffled. same_tree_reversed. Qed.

Example default_run_scenario :
  main (mkArgs "." false []) project_world = (["package.json"; "src/App.tsx"], 0%Z).
Proof. reflexivity. Qed.

Example only_example_scenario :
  main (mkArgs "." true []) readme_world = (["README_SUBTASK1.md"], 0%Z).
Proof. reflexivity. Qed.

Example missing_root_scenario :
  main (mkArgs "/nonexistent/path" false []) project_world =
    (["[error] root path '/nonexistent/path' does not exist or is not a directory."], 2%Z).
Proof. reflexivity. Qed.

(** * The claims *)

(** C1 (as amended).  On a root that is a well-formed directory,
    [gather_files] returns a list sorted by [String.le] (lexicographic on
    character codes), without repetition, whose members are exactly the
    root-relative paths of the entries that are not directories (regular
    files, and also special files and links that do not resolve to a
    directory) and are reached through directories proper whose names are
    outside the exclude set. *)
Theorem gather_files_sorted_listing w root exclude_dirs entries :
  stat w (str (resolve w root)) = Some (Directory entries) →
  wf_node (Directory entries) = true →
  ∃ files, gather_files w root exclude_dirs = Some files ∧
    StronglySorted String.le files ∧ NoDup files ∧
    ∀ s, s ∈ files ↔ ∃ p, listed exclude_dirs entries p ∧ s = join_slash p.
Proof.
  intros Hstat Hwf.
  destruct (gather_files_total w root exclude_dirs) as [files Hfiles]; [congruence|].
  exists files. split; [done|]. split_and!.
  - rewrite (gather_files_result _ _ _ _ _ Hstat Hwf Hfiles). apply sort_sorted.
  - by eapply gather_files_NoDup.
  - by eapply elem_of_gather_files.
Qed.

Lemma gather_files_sorted_listing_witness :
  stat site_world (str (resolve site_world (Path "."))) = Some (Directory site_entries) ∧
  wf_node (Directory site_entries) = true ∧
  ∃ files, gather_files site_world (Path ".") DEFAULT_EXCLUDE_DIRS = Some files ∧
    StronglySorted String.le files ∧ NoDup files ∧
    ∀ s, s ∈ files ↔ ∃ p, listed DEFAULT_EXCLUDE_DIRS site_entries p ∧ s = join_slash p.
Proof.
  split; [reflexivity|]. split; [reflexivity|].
  apply (gather_files_sorted_listing site_world (Path ".") DEFAULT_EXCLUDE_DIRS site_entries);
    reflexivity.
Defined.

(** C1 (as stated) fails: the paths returned are not all paths of regular
    files.  A named pipe in the root is returned although no regular file,
    however reached, has its path. *)
Lemma gather_files_lists_a_pipe :
  ¬ (∀ w root exclude_dirs entries files,
       stat w (str (resolve w root)) = Some (Directory entries) →
       wf_node (Directory entries) = true →
       gather_files w root exclude_dirs = Some files →
       ∀ s, s ∈ files →
         ∃ p n, reach entries p n ∧ is_regular n = true ∧ s = join_slash p).
Proof.
  intros Hclaim.
  destruct (Hclaim site_world (Path ".") DEFAULT_EXCLUDE_DIRS site_entries _
              eq_refl eq_refl eq_refl "events") as (p & n & Hp & Hn & Hs).
  { vm_compute. find_entry. }
  pose proof (reach_valid _ _ _ Hp eq_refl) as [Hvalid _].
  assert (p = ["events"]) as ->.
  { apply join_slash_inj; [by apply valid_names_no_slash|by repeat constructor| |done|done].
    by eapply reach_nonempty. }
  assert (reach site_entries ["events"] Special) as Hpipe.
  { apply reach_here. find_entry. }
  by rewrite (reach_functional _ _ _ _ Hp eq_refl Hpipe) in Hn.
Qed.

(** C2.  Let [D] be in the exclude set and name a directory (or a link to
    one) at any depth below the root.  Then no path below that directory is
    in the list [gather_files] returns. *)
Theorem excluded_subtree_not_listed w root exclude_dirs entries files D pre c sub rest n :
  stat w (str (resolve w root)) = Some (Directory entries) →
  wf_node (Directory entries) = true →
  gather_files w root exclude_dirs = Some files →
  D ∈ exclude_dirs →
  reach entries (pre ++ [D]) c → dir_entries c = Some sub → reach sub rest n →
  join_slash (pre ++ D :: rest) ∉ files.
Proof. intros. eapply gather_files_not_below; eauto. Qed.

Lemma excluded_subtree_not_listed_witness :
  "src/build/gen.ts" ∉
    default [] (gather_files site_world (Path ".") DEFAULT_EXCLUDE_DIRS).
Proof.
  apply (excluded_subtree_not_listed site_world (Path ".") DEFAULT_EXCLUDE_DIRS
           site_entries _ "build" ["src"] (Directory [("gen.ts", Regular)])
           [("gen.ts", Regular)] ["gen.ts"] Regular);
    [reflexivity|reflexivity|reflexivity|by vm_compute| |reflexivity|].
  - eapply reach_below; [find_entry|reflexivity|apply reach_here; find_entry].
  - apply reach_here; find_entry.
Defined.

(** C8.  Let a symbolic link that resolves to a directory sit anywhere
    below the root.  Then no path that leads through the link is in the
    list [gather_files] returns. *)
Theorem symlinked_directory_not_followed w root exclude_dirs entries files L pre target sub rest n :
  stat w (str (resolve w root)) = Some (Directory entries) →
  wf_node (Directory entries) = true →
  gather_files w root exclude_dirs = Some files →
  reach entries (pre ++ [L]) (Symlink target) →
  dir_entries (Symlink target) = Some sub → reach sub rest n →
  join_slash (pre ++ L :: rest) ∉ files.
Proof. intros. eapply gather_files_not_below; eauto. Qed.

Lemma symlinked_directory_not_followed_witness :
  "vendor/lib.js" ∉ default [] (gather_files site_world (Path ".") ∅).
Proof.
  apply (symlinked_directory_not_followed site_world (Path ".") ∅
           site_entries _ "vendor" [] (Some (Directory [("lib.js", Regular)]))
           [("lib.js", Regular)] ["lib.js"] Regular);
    [reflexivity|reflexivity|reflexivity| |reflexivity|].
  - apply reach_here; find_entry.
  - apply reach_here; find_entry.
Defined.

(** C6.  Every path [gather_files] emits is relative to the root: for a
    listed file [f] whose directory has the root-relative names [ds] it is
    the bare name [f] when the directory is the root itself ([ds] empty),
    and otherwise the names [ds] joined by forward slashes, a forward slash
    and [f]; nothing else is emitted, and no emitted path starts with a
    separator. *)
Theorem emitted_paths_relative w root exclude_dirs entries files :
  stat w (str (resolve w root)) = Some (Directory entries) →
  wf_node (Directory entries) = true →
  gather_files w root exclude_dirs = Some files →
  (∀ f, listed exclude_dirs entries [f] → f ∈ files) ∧
  (∀ ds f, ds ≠ [] → listed exclude_dirs entries (ds ++ [f]) →
     join_slash ds +:+ "/" +:+ f ∈ files) ∧
  (∀ s, s ∈ files →
     starts_with_slash s = false ∧
     ∃ ds f, listed exclude_dirs entries (ds ++ [f]) ∧ has_slash f = false ∧
             s = emitted ds f).
Proof.
  intros Hstat Hwf Hfiles.
  pose proof (elem_of_gather_files _ _ _ _ _ Hstat Hwf Hfiles) as Helem.
  split_and!.
  - intros f Hf. apply Helem. by exists [f].
  - intros ds f Hds Hf. apply Helem. exists (ds ++ [f]). split; [done|].
    rewrite join_slash_snoc. unfold emitted. by rewrite decide_False.
  - intros s (p & Hp & ->)%Helem.
    pose proof (listed_valid _ _ _ Hp Hwf) as Hvalid.
    pose proof (listed_nonempty _ _ _ Hp) as Hne. split.
    + destruct (join_slash_head p Hvalid Hne) as (c & s & -> & Hc). done.
    + destruct p as [|d p _] using rev_ind; [done|].
      exists p, d. split; [done|]. split; [|by rewrite join_slash_snoc].
      apply Forall_app in Hvalid as [_ Hd]. by inversion_clear Hd as [|?? (_ & _ & ?)].
Qed.

Lemma emitted_paths_relative_witness :
  "package.json" ∈ default [] (gather_files site_world (Path ".") DEFAULT_EXCLUDE_DIRS) ∧
  "src/lib/supabaseClient.ts" ∈
    default [] (gather_files site_world (Path ".") DEFAULT_EXCLUDE_DIRS).
Proof.
  destruct (emitted_paths_relative site_world (Path ".") DEFAULT_EXCLUDE_DIRS
              site_entries _ eq_refl eq_refl eq_refl) as (Hroot & Hbelow & _).
  split.
  - apply Hroot. eapply listed_here; [find_entry|reflexivity].
  - apply (Hbelow ["src"; "lib"] "supabaseClient.ts"); [done|].
    eapply listed_below; [find_entry|by vm_compute|].
    eapply listed_below; [find_entry|by vm_compute|].
    eapply listed_here; [find_entry|reflexivity].
Defined.

(** C5.  Every directory the walk scans is the root or is reached from it
    through names none of which is in the exclude set; in particular the
    base name of a scanned directory other than the root is never in the
    exclude set.  Conversely no directory below the root with an excluded
    name on its path is ever scanned.  The trace records every call of
    [os.scandir], so an excluded directory is pruned before the descent,
    not filtered out afterwards. *)
Theorem walk_never_enters_excluded w root exclude_dirs entries st :
  stat w (str (resolve w root)) = Some (Directory entries) →
  wf_node (Directory entries) = true →
  gather_walk w root exclude_dirs = Some st →
  (∀ dirpath, dirpath ∈ scanned st →
     ∃ ds, dirpath = foldl os_path_join (str (resolve w root)) ds ∧
           Forall (λ d, d ∉ exclude_dirs) ds ∧
           (ds = [] ∨ basename dirpath ∉ exclude_dirs)) ∧
  (∀ ds, Forall valid_name ds → Exists (λ d, d ∈ exclude_dirs) ds →
     foldl os_path_join (str (resolve w root)) ds ∉ scanned st).
Proof.
  intros Hstat Hwf Hwalk.
  rewrite (gather_walk_directory _ _ _ entries) in Hwalk by done.
  injection Hwalk as <-. cbn [scanned].
  pose proof (walk_scans_below exclude_dirs (Directory entries) Hwf
                (str (resolve w root))) as Hbelow.
  split.
  - intros dirpath (ds & -> & Hds)%Hbelow.
    exists ds. split; [done|]. split.
    { eapply Forall_impl; [done|]. by intros d [? _]. }
    destruct ds as [|d ds _] using rev_ind; [by left|right].
    apply Forall_app in Hds as [_ Hd]. inversion_clear Hd as [|?? [Hex Hvalid]].
    by rewrite foldl_snoc, basename_os_path_join.
  - intros ds Hvalid Hex (ds' & Heq & Hds')%Hbelow.
    apply foldl_os_path_join_inj in Heq as ->; [|done|].
    + apply Exists_exists in Hex as (d & Hd & Hex).
      rewrite Forall_forall in Hds'. by destruct (Hds' d Hd).
    + eapply Forall_impl; [done|]. by intros d [_ ?].
Qed.

Lemma walk_never_enters_excluded_witness :
  (∃ ds, "/srv/build/src/lib" = foldl os_path_join "/srv/build" ds ∧
         Forall (λ d, d ∉ DEFAULT_EXCLUDE_DIRS) ds ∧
         (ds = [] ∨ basename "/srv/build/src/lib" ∉ DEFAULT_EXCLUDE_DIRS)) ∧
  "/srv/build/src/build" ∉
    scanned (default (mkWalk [] [])
               (gather_walk site_world (Path ".") DEFAULT_EXCLUDE_DIRS)).
Proof.
  destruct (walk_never_enters_excluded site_world (Path ".") DEFAULT_EXCLUDE_DIRS
              site_entries _ eq_refl eq_refl eq_refl) as [Hscanned Hpruned].
  split.
  - apply (Hscanned "/srv/build/src/lib"). find_entry.
  - apply (Hpruned ["src"; "build"]); [by repeat constructor|].
    apply Exists_cons_tl, Exists_cons_hd. by vm_compute.
Defined.

(** C10.  The exclude set does not apply to the root.  When the base
    name of the resolved root is in the exclude set, the walk still starts
    by scanning the root and enters every directory below it that is
    reached through directories proper with names outside the exclude set;
    [gather_files] returns exactly the listing of the tree, at every
    depth, pruned below the root only; and it is the list returned for the
    same tree under a root of any other name. *)
Theorem root_never_excluded w root exclude_dirs entries b :
  stat w (str (resolve w root)) = Some (Directory entries) →
  wf_node (Directory entries) = true →
  last (names (resolve w root)) = Some b → b ∈ exclude_dirs →
  ∃ st files,
    gather_walk w root exclude_dirs = Some st ∧
    gather_files w root exclude_dirs = Some files ∧
    head (scanned st) = Some (str (resolve w root)) ∧
    (∀ ds, entered exclude_dirs entries ds →
       foldl os_path_join (str (resolve w root)) ds ∈ scanned st) ∧
    (∀ s, s ∈ files ↔ ∃ p, listed exclude_dirs entries p ∧ s = join_slash p) ∧
    (∀ w' root', stat w' (str (resolve w' root')) = Some (Directory entries) →
       gather_files w' root' exclude_dirs = Some files).
Proof.
  intros Hstat Hwf _ _. do 2 eexists.
  split; [by apply gather_walk_directory|].
  split; [by apply gather_files_directory|]. split_and!.
  - done.
  - intros ds Hds. cbn [scanned]. by apply entered_walk_scans.
  - intros s. rewrite elem_of_sort, list_elem_of_fmap.
    split; intros (p & ? & ?); exists p; by rewrite ?elem_of_walk_paths in *.
  - intros w' root' Hstat'. by apply gather_files_directory.
Qed.

Lemma root_never_excluded_witness :
  ∃ st files,
    gather_walk site_world (Path ".") DEFAULT_EXCLUDE_DIRS = Some st ∧
    gather_files site_world (Path ".") DEFAULT_EXCLUDE_DIRS = Some files ∧
    head (scanned st) = Some "/srv/build" ∧
    (∀ ds, entered DEFAULT_EXCLUDE_DIRS site_entries ds →
       foldl os_path_join "/srv/build" ds ∈ scanned st) ∧
    (∀ s, s ∈ files ↔ ∃ p, listed DEFAULT_EXCLUDE_DIRS site_entries p ∧ s = join_slash p) ∧
    (∀ w' root', stat w' (str (resolve w' root')) = Some (Directory site_entries) →
       gather_files w' root' DEFAULT_EXCLUDE_DIRS = Some files).
Proof.
  apply (root_never_excluded site_world (Path ".") DEFAULT_EXCLUDE_DIRS
           site_entries "build"); [reflexivity|reflexivity|reflexivity|by vm_compute].
Defined.

(** C3.  [print_only_example] prints the entries of [EXAMPLE_FILES] that
    occur in the result of [gather_files], in the order of [EXAMPLE_FILES]
    and nothing else: what it adds to standard output is a sublist of
    [EXAMPLE_FILES]. *)
Theorem print_only_example_allowlist_order w root exclude_dirs stdout files :
  gather_files w root exclude_dirs = Some files →
  ∃ printed,
    print_only_example w root exclude_dirs stdout = Some (stdout ++ printed) ∧
    printed = filter (λ p, p ∈ files) EXAMPLE_FILES ∧
    sublist printed EXAMPLE_FILES.
Proof.
  intros Hfiles. eexists. split; [by apply print_only_example_spec|].
  split; [done|]. apply sublist_filter.
Qed.

Lemma print_only_example_allowlist_order_witness :
  ∃ printed,
    print_only_example site_world (Path ".") DEFAULT_EXCLUDE_DIRS [] = Some ([] ++ printed) ∧
    printed = filter (λ p, p ∈ default [] (gather_files site_world (Path ".") DEFAULT_EXCLUDE_DIRS))
                EXAMPLE_FILES ∧
    sublist printed EXAMPLE_FILES.
Proof.
  apply (print_only_example_allowlist_order site_world (Path ".") DEFAULT_EXCLUDE_DIRS []).
  reflexivity.
Defined.

(** C7.  With [X] among the [--ignore] names and a root that passes the
    check, the traversal runs with the exclude set made of the eight
    default names and the supplied names: [main] prints, with status 0,
    the list [gather_files] returns for that set (filtered through
    [EXAMPLE_FILES] with [--only-example]); that list is the listing of
    the tree pruned at every directory bearing a default or a supplied
    name, so nothing below such a directory is in it; and the run is the
    run in which [X] is taken out of [--ignore] and put into the default
    set. *)
Theorem ignore_extends_defaults args w X entries :
  X ∈ ignore args →
  root_is_bad w (Path (root args)) = Some false →
  stat w (str (resolve w (Path (root args)))) = Some (Directory entries) →
  wf_node (Directory entries) = true →
  ∃ files,
    gather_files w (Path (root args))
      (list_to_set
         (["node_modules"; ".git"; "dist"; "build"; ".vite"; ".cache"; ".parcel-cache"; "__pycache__"] ++ ignore args)) = Some files ∧
    main args w =
      (if only_example args then filter (λ p, p ∈ files) EXAMPLE_FILES else files, 0%Z) ∧
    (∀ s, s ∈ files ↔
       ∃ p, listed (list_to_set
                      (["node_modules"; ".git"; "dist"; "build"; ".vite"; ".cache"; ".parcel-cache"; "__pycache__"] ++ ignore args))
              entries p ∧ s = join_slash p) ∧
    (∀ D pre c sub rest n,
       D ∈ ["node_modules"; ".git"; "dist"; "build"; ".vite"; ".cache"; ".parcel-cache"; "__pycache__"] ∨
         D ∈ ignore args →
       reach entries (pre ++ [D]) c → dir_entries c = Some sub → reach sub rest n →
       join_slash (pre ++ D :: rest) ∉ files) ∧
    main_with ({[X]} ∪ DEFAULT_EXCLUDE_DIRS)
      (mkArgs (root args) (only_example args) (filter (λ x, x ≠ X) (ignore args))) w =
      main args w.
Proof.
  intros HX Hgood Hstat Hwf.
  assert (list_to_set
            (["node_modules"; ".git"; "dist"; "build"; ".vite"; ".cache"; ".parcel-cache"; "__pycache__"] ++ ignore args) =
          DEFAULT_EXCLUDE_DIRS ∪ list_to_set (ignore args)) as ->.
  { by rewrite list_to_set_app_L. }
  destruct (gather_files_total w (Path (root args))
              (DEFAULT_EXCLUDE_DIRS ∪ list_to_set (ignore args))) as [files Hfiles].
  { intros n' Hn'. congruence. }
  exists files. split; [done|]. split_and!.
  - by apply main_with_good_root.
  - by eapply elem_of_gather_files.
  - intros D pre c sub rest n HD Hc Hsub Hrest.
    eapply gather_files_not_below; [done..|]. left.
    rewrite elem_of_union, elem_of_list_to_set. destruct HD as [HD|HD]; [left|by right].
    unfold DEFAULT_EXCLUDE_DIRS. by apply elem_of_list_to_set.
  - apply main_with_exclude; [done..|]. cbn [ignore]. apply set_eq. intros x.
    rewrite !elem_of_union, !elem_of_list_to_set, elem_of_singleton, list_elem_of_filter.
    destruct (decide (x = X)) as [->|]; tauto.
Qed.

Lemma ignore_extends_defaults_witness :
  ∃ files,
    gather_files site_world (Path ".")
      (list_to_set
         (["node_modules"; ".git"; "dist"; "build"; ".vite"; ".cache"; ".parcel-cache"; "__pycache__"] ++ ["src"])) = Some files ∧
    main (mkArgs "." false ["src"]) site_world = (files, 0%Z) ∧
    (∀ s, s ∈ files ↔
       ∃ p, listed (list_to_set
                      (["node_modules"; ".git"; "dist"; "build"; ".vite"; ".cache"; ".parcel-cache"; "__pycache__"] ++ ["src"]))
              site_entries p ∧ s = join_slash p) ∧
    (∀ D pre c sub rest n,
       D ∈ ["node_modules"; ".git"; "dist"; "build"; ".vite"; ".cache"; ".parcel-cache"; "__pycache__"] ∨
         D ∈ ["src"] →
       reach site_entries (pre ++ [D]) c → dir_entries c = Some sub → reach sub rest n →
       join_slash (pre ++ D :: rest) ∉ files) ∧
    main_with ({["src"]} ∪ DEFAULT_EXCLUDE_DIRS) (mkArgs "." false []) site_world =
      main (mkArgs "." false ["src"]) site_world.
Proof.
  apply (ignore_extends_defaults (mkArgs "." false ["src"]) site_world "src" site_entries);
    [find_entry|reflexivity|reflexivity|reflexivity].
Defined.




(** C9.  [gather_files] is a function of the tree below the root and of
    the exclude set: on the same well-formed tree, in whatever order the
    file system enumerates the entries of each directory, it returns the
    same list. *)
Theorem gather_files_order_independent w w' root root' exclude_dirs n n' :
  stat w (str (resolve w root)) = Some n →
  stat w' (str (resolve w' root')) = Some n' →
  wf_node n = true →
  same_tree n n' →
  gather_files w root exclude_dirs = gather_files w' root' exclude_dirs.
Proof.
  intros Hstat Hstat' Hwf Hsame.
  pose proof (same_tree_wf _ _ Hsame Hwf) as Hwf'.
  pose proof (same_tree_walk_paths exclude_dirs _ _ Hsame []) as Hperm.
  destruct Hsame.
  3: { rewrite (gather_files_directory _ _ _ entries),
         (gather_files_directory _ _ _ entries') by done.
       f_equal. apply sort_unique. by rewrite Hperm. }
  all: unfold gather_files; rewrite !gather_walk_no_directory; [done|..];
    intros entries; congruence.
Qed.

Lemma gather_files_order_independent_witness :
  gather_files site_world (Path ".") DEFAULT_EXCLUDE_DIRS =
  gather_files shuffled_world (Path "/mnt/copy") DEFAULT_EXCLUDE_DIRS.
Proof.
  apply (gather_files_order_independent site_world shuffled_world (Path ".")
           (Path "/mnt/copy") DEFAULT_EXCLUDE_DIRS
           (Directory site_entries) (Directory site_entries_shuffled));
    [reflexivity|reflexivity|reflexivity|apply site_entries_same_tree].
Defined.

(** * Further properties of the code *)

(** ** gather_files at its edges *)



(** X2.  On a well-formed tree [gather_files] returns: the
    [relative_to(root)] of its loop never raises [ValueError], because
    every [dirpath] the walk yields parses to a path below the resolved
    root. *)
Theorem gather_files_never_raises w root exclude_dirs :
  (∀ n, stat w (str (resolve w root)) = Some n → wf_node n = true) →
  ∃ files, gather_files w root exclude_dirs = Some files.
Proof. intros Hwf. by apply gather_files_total. Qed.

Lemma gather_files_never_raises_witness :
  ∃ files, gather_files site_world (Path ".") {["src"]} = Some files.
Proof.
  apply (gather_files_never_raises site_world (Path ".") {["src"]}).
  intros n [= <-]. reflexivity.
Defined.

(** X3.  No directory is ever listed: the path of a directory, of a
    directory that cannot be read or of a link to a directory is not in
    the result, whether the directory is empty, excluded or neither. *)
Theorem directories_not_listed w root exclude_dirs entries files p n :
  stat w (str (resolve w root)) = Some (Directory entries) →
  wf_node (Directory entries) = true →
  gather_files w root exclude_dirs = Some files →
  reach entries p n → is_dir n = true →
  join_slash p ∉ files.
Proof.
  intros Hstat Hwf Hfiles Hp Hdir Hin.
  destruct (reach_valid _ _ _ Hp Hwf) as [Hvalid _].
  apply (gather_files_listed _ _ _ _ _ Hstat Hwf Hfiles) in Hin;
    [|done|by eapply reach_nonempty].
  apply listed_reach in Hin as (n' & Hp' & Hfile).
  rewrite (reach_functional _ _ _ _ Hp Hwf Hp') in Hdir. congruence.
Qed.

Lemma directories_not_listed_witness :
  ("src/lib" ∉ default [] (gather_files site_world (Path ".") ∅)) ∧
  ("vendor" ∉ default [] (gather_files site_world (Path ".") ∅)) ∧
  ("private" ∉ default [] (gather_files site_world (Path ".") ∅)).
Proof.
  split_and!.
  - apply (directories_not_listed site_world (Path ".") ∅ site_entries _
             ["src"; "lib"] (Directory [("supabaseClient.ts", Regular)]));
      [reflexivity|reflexivity|reflexivity| |reflexivity].
    eapply reach_below; [find_entry|reflexivity|apply reach_here; find_entry].
  - apply (directories_not_listed site_world (Path ".") ∅ site_entries _
             ["vendor"] (Symlink (Some (Directory [("lib.js", Regular)]))));
      [reflexivity|reflexivity|reflexivity| |reflexivity].
    apply reach_here; find_entry.
  - apply (directories_not_listed site_world (Path ".") ∅ site_entries _
             ["private"] Unreadable);
      [reflexivity|reflexivity|reflexivity| |reflexivity].
    apply reach_here; find_entry.
Defined.

(** ** The exclude set *)

Lemma listed_mono (exclude_dirs exclude_dirs' : gset string) entries p :
  exclude_dirs ⊆ exclude_dirs' →
  listed exclude_dirs' entries p → listed exclude_dirs entries p.
Proof.
  intros Hsub. induction 1 as [entries f n Hin Hdir|entries d sub p Hin Hex _ IH].
  - by eapply listed_here.
  - eapply listed_below; [done| |done]. intros Hd. by apply Hex, Hsub.
Qed.

(** X4.  Excluding more names never adds a path: whatever is returned
    under a larger exclude set is returned under a smaller one. *)
Theorem larger_exclude_set_lists_less w root (exclude_dirs exclude_dirs' : gset string)
    entries files files' s :
  stat w (str (resolve w root)) = Some (Directory entries) →
  wf_node (Directory entries) = true →
  exclude_dirs ⊆ exclude_dirs' →
  gather_files w root exclude_dirs = Some files →
  gather_files w root exclude_dirs' = Some files' →
  s ∈ files' → s ∈ files.
Proof.
  intros Hstat Hwf Hsub Hfiles Hfiles'.
  rewrite (elem_of_gather_files _ _ _ _ _ Hstat Hwf Hfiles),
    (elem_of_gather_files _ _ _ _ _ Hstat Hwf Hfiles').
  intros (p & Hp & ->). exists p. split; [|done]. by eapply listed_mono.
Qed.

Lemma larger_exclude_set_lists_less_witness :
  "src/App.tsx" ∈ default [] (gather_files site_world (Path ".") {[".git"]}).
Proof.
  eapply (larger_exclude_set_lists_less site_world (Path ".") {[".git"]} DEFAULT_EXCLUDE_DIRS
            site_entries _ _ "src/App.tsx");
    [reflexivity|reflexivity| |reflexivity|reflexivity|vm_compute; find_entry].
  intros x ->%elem_of_singleton. by vm_compute.
Defined.

Lemma walk_paths_absent_name (exclude_dirs : gset string) X n :
  X ∉ dir_names n →
  ∀ ds, walk_paths ({[X]} ∪ exclude_dirs) ds n = walk_paths exclude_dirs ds n.
Proof.
  induction n as [| |entries IH| |target _] using node_ind; intros HX ds; try done.
  cbn [walk_paths]. f_equal. apply Forall_bind_ext.
  rewrite Forall_forall in IH. apply Forall_forall. intros [d c] He. cbn [fst snd].
  assert (X ∉ match c with Directory _ => d :: dir_names c | _ => [] end) as Hc.
  { intros Hin. apply HX. cbn [dir_names]. apply list_elem_of_bind. by exists (d, c). }
  destruct c as [| |sub| |target]; try by repeat case_bool_decide.
  apply not_elem_of_cons in Hc as [Hd Hsub].
  rewrite (IH _ He Hsub). apply (f_equal (λ b : bool, if b then _ else _)).
  apply bool_decide_ext. rewrite not_elem_of_union, not_elem_of_singleton.
  split; [by intros [_ ?]|by intros ?].
Qed.

(** X5.  Excluding a name that no directory of the tree bears changes
    nothing. *)
Theorem excluding_absent_name_changes_nothing w root (exclude_dirs : gset string) X entries :
  stat w (str (resolve w root)) = Some (Directory entries) →
  wf_node (Directory entries) = true →
  X ∉ dir_names (Directory entries) →
  gather_files w root ({[X]} ∪ exclude_dirs) = gather_files w root exclude_dirs.
Proof.
  intros Hstat Hwf HX. rewrite !(gather_files_directory _ _ _ entries) by done.
  by rewrite walk_paths_absent_name.
Qed.

Lemma excluding_absent_name_changes_nothing_witness :
  gather_files site_world (Path ".") ({["dist"]} ∪ {["node_modules"]}) =
  gather_files site_world (Path ".") {["node_modules"]}.
Proof.
  apply (excluding_absent_name_changes_nothing site_world (Path ".") {["node_modules"]}
           "dist" site_entries); [reflexivity|reflexivity|].
  apply (bool_decide_unpack ("dist" ∉ dir_names (Directory site_entries))). by vm_compute.
Defined.

(** ** Symbolic links *)

Section LinkVariant.
Variable exclude_dirs : gset string.

Lemma link_variant_is_dir n n' : link_variant n n' → is_dir n = is_dir n'.
Proof. by destruct 1. Qed.

Lemma link_variant_scan_nondirs (entries entries' : list (string * node)) :
  Forall2 (λ e e', e.1 = e'.1 ∧ link_variant e.2 e'.2) entries entries' →
  scan_nondirs entries = scan_nondirs entries'.
Proof.
  unfold scan_nondirs.
  induction 1 as [|[d c] [d' c'] es es' [Hname Hvar] _ IH]; [done|].
  cbn in Hname. subst d'. apply link_variant_is_dir in Hvar. cbn in Hvar.
  destruct (is_dir c) eqn:Hdir.
  - rewrite !filter_cons_False; [done|cbn; congruence..].
  - rewrite !filter_cons_True; [|cbn; congruence..]. cbn. by rewrite IH.
Qed.

Lemma link_variant_walk_paths n n' :
  link_variant n n' → ∀ ds, walk_paths exclude_dirs ds n = walk_paths exclude_dirs ds n'.
Proof.
  revert n'. induction n as [| |entries IH| |target _] using node_ind;
    intros n' Hvar; inversion Hvar as [| |? entries' Hall| |]; simplify_eq;
    clear Hvar; intros ds; try done.
  cbn [walk_paths]. rewrite (link_variant_scan_nondirs _ _ Hall). f_equal.
  induction Hall as [|[d c] [d' c'] es es' [Hname Hvar] _ IHall]; [done|].
  cbn in Hname. subst d'. apply Forall_cons in IH as [IHc IHes].
  rewrite !bind_cons. cbn [fst snd] in *. rewrite (IHall IHes).
  by rewrite (IHc _ Hvar).
Qed.
End LinkVariant.

(** X6.  The result does not depend on what symbolic links point to,
    beyond whether a link resolves to a directory: two well-formed trees
    that differ only in the targets of their links give the same list. *)
Theorem gather_files_ignores_link_targets w w' root root' exclude_dirs n n' :
  stat w (str (resolve w root)) = Some n →
  stat w' (str (resolve w' root')) = Some n' →
  wf_node n = true → wf_node n' = true →
  link_variant n n' →
  gather_files w root exclude_dirs = gather_files w' root' exclude_dirs.
Proof.
  intros Hstat Hstat' Hwf Hwf' Hvar.
  pose proof (link_variant_walk_paths exclude_dirs _ _ Hvar []) as Heq.
  destruct Hvar.
  3: { rewrite (gather_files_directory _ _ _ entries),
         (gather_files_directory _ _ _ entries') by done.
       by rewrite Heq. }
  all: unfold gather_files; rewrite !gather_walk_no_directory; [done|..];
    intros entries; congruence.
Qed.

Lemma gather_files_ignores_link_targets_witness :
  gather_files site_world (Path ".") DEFAULT_EXCLUDE_DIRS =
  gather_files relinked_world (Path "/srv/build") DEFAULT_EXCLUDE_DIRS.
Proof.
  apply (gather_files_ignores_link_targets site_world relinked_world (Path ".")
           (Path "/srv/build") DEFAULT_EXCLUDE_DIRS
           (Directory site_entries) (Directory site_entries_relinked));
    [reflexivity|reflexivity|reflexivity|reflexivity|].
  unfold site_entries, site_entries_relinked. link_variant_literal.
Defined.

(** ** The walk *)

Lemma walk_scans_child exclude_dirs top d c dirpath (b : bool) :
  valid_name d → wf_node c = true →
  dirpath ∈ (if b then walk_scans exclude_dirs (os_path_join top d) c else []) →
  ∃ ds, dirpath = foldl os_path_join top (d :: ds) ∧ Forall valid_name ds.
Proof.
  intros Hd Hc Hin. destruct b; [|by apply elem_of_nil in Hin].
  apply walk_scans_below in Hin as (ds & -> & Hds); [|done].
  exists ds. split; [done|]. eapply Forall_impl; [done|]. by intros ? [_ ?].
Qed.

Lemma walk_scans_NoDup exclude_dirs n :
  wf_node n = true → ∀ top, NoDup (walk_scans exclude_dirs top n).
Proof.
  induction n as [| |entries IH| |target _] using node_ind; intros Hwf top;
    cbn [walk_scans]; try by apply NoDup_nil.
  2: { apply NoDup_singleton. }
  pose proof Hwf as [Hnodup Hall]%wf_node_Directory.
  rewrite Forall_forall in IH, Hall. apply NoDup_cons. split.
  - intros ([d c] & Hin & He)%list_elem_of_bind. cbn [fst snd] in Hin.
    destruct (Hall _ He) as [Hd Hc].
    apply walk_scans_child in Hin as (ds & Heq & Hds); [|done..].
    apply (foldl_os_path_join_inj top [] (d :: ds)) in Heq; [done|done|].
    by apply Forall_cons.
  - apply NoDup_bind; [| |by eapply NoDup_fmap_1].
    + intros [d1 c1] [d2 c2] dirpath H1 H2 Hp1 Hp2. cbn [fst snd] in *.
      destruct (Hall _ H1) as [Hd1 Hc1], (Hall _ H2) as [Hd2 Hc2].
      apply walk_scans_child in Hp1 as (ds1 & -> & Hds1); [|done..].
      apply walk_scans_child in Hp2 as (ds2 & Heq & Hds2); [|done..].
      apply foldl_os_path_join_inj in Heq as [= -> _]; [|by apply Forall_cons..].
      f_equal. by eapply entry_unique.
    + intros [d c] He. cbn [fst snd]. destruct (Hall _ He) as [Hd Hc].
      case_bool_decide; [|by apply NoDup_nil]. by apply (IH _ He).
Qed.

(** X7.  The walk hands no directory to [os.scandir] twice. *)
Theorem walk_scans_each_directory_once w root exclude_dirs entries st :
  stat w (str (resolve w root)) = Some (Directory entries) →
  wf_node (Directory entries) = true →
  gather_walk w root exclude_dirs = Some st →
  NoDup (scanned st).
Proof.
  intros Hstat Hwf Hwalk.
  rewrite (gather_walk_directory _ _ _ entries) in Hwalk by done.
  injection Hwalk as <-.
  by apply (walk_scans_NoDup exclude_dirs (Directory entries) Hwf (str (resolve w root))).
Qed.

Lemma walk_scans_each_directory_once_witness :
  NoDup (scanned (default (mkWalk [] [])
                    (gather_walk site_world (Path ".") DEFAULT_EXCLUDE_DIRS))).
Proof.
  apply (walk_scans_each_directory_once site_world (Path ".") DEFAULT_EXCLUDE_DIRS
           site_entries); reflexivity.
Defined.

(** ** The command line *)

(** X8.  [--ignore] matters as a set, and only outside the defaults:
    repeating a name, reordering the names or naming a default changes
    neither the output nor the exit status. *)
Theorem ignore_is_a_set r mode (names names' : list string) w :
  (∀ x, x ∉ DEFAULT_EXCLUDE_DIRS → x ∈ names ↔ x ∈ names') →
  main (mkArgs r mode names) w = main (mkArgs r mode names') w.
Proof.
  intros Hsame. apply main_with_exclude; [done..|]. cbn [ignore].
  apply set_eq. intros x. rewrite !elem_of_union, !elem_of_list_to_set.
  destruct (decide (x ∈ DEFAULT_EXCLUDE_DIRS)) as [|Hx]; [tauto|].
  specialize (Hsame x Hx). tauto.
Qed.

Lemma ignore_is_a_set_witness :
  main (mkArgs "." false ["src"; "dist"; "src"]) site_world =
  main (mkArgs "." false ["src"]) site_world.
Proof.
  apply (ignore_is_a_set "." false ["src"; "dist"; "src"] ["src"] site_world).
  intros x Hx. rewrite !elem_of_cons, !elem_of_nil.
  split; [intros [->|[->|[->|[]]]]|intros [->|[]]]; auto.
  exfalso. apply Hx. by vm_compute.
Defined.

(** X9.  The run depends on [--root] through the parsed path only: giving
    the root as the error message would render it ([a//b/] as [a/b]) is
    the same run. *)
Theorem main_of_rendered_root args w :
  main (mkArgs (str (Path (root args))) (only_example args) (ignore args)) w = main args w.
Proof.
  unfold main, main_with. cbn [root only_example ignore].
  by rewrite (Path_str _ (Path_normal (root args))).
Qed.

(** X10.  Whatever [--only-example] prints, the run without it prints as
    well. *)
Theorem only_example_prints_a_part r names w line :
  line ∈ (main (mkArgs r true names) w).1 → line ∈ (main (mkArgs r false names) w).1.
Proof.
  unfold main, main_with. cbn [root only_example ignore].
  destruct (root_is_bad w (Path r)) as [[]|]; [done| |done].
  destruct (gather_files w (Path r) (DEFAULT_EXCLUDE_DIRS ∪ list_to_set names))
    as [files|] eqn:Hfiles.
  - rewrite (print_only_example_spec _ _ _ _ files),
      (print_all_files_spec _ _ _ _ files) by done.
    cbn -[filter EXAMPLE_FILES]. by intros [? _]%list_elem_of_filter.
  - unfold print_only_example, print_all_files. by rewrite Hfiles.
Qed.

Lemma only_example_prints_a_part_witness :
  "src/main.tsx" ∈ (main (mkArgs "." false [".cache"]) site_world).1.
Proof.
  apply (only_example_prints_a_part "." [".cache"] site_world "src/main.tsx").
  vm_compute. find_entry.
Defined.

(** X11.  When the run without [--only-example] succeeds, the lines it
    has printed are in sorted order. *)
Theorem main_default_output_sorted r names w out :
  main (mkArgs r false names) w = (out, 0%Z) → StronglySorted String.le out.
Proof.
  unfold main, main_with. cbn [root only_example ignore].
  destruct (root_is_bad w (Path r)) as [[]|]; [done| |done].
  destruct (gather_files w (Path r) (DEFAULT_EXCLUDE_DIRS ∪ list_to_set names))
    as [files|] eqn:Hfiles.
  - rewrite (print_all_files_spec _ _ _ _ files) by done. intros [= <-].
    by eapply gather_files_always_sorted.
  - unfold print_all_files. by rewrite Hfiles.
Qed.

Lemma main_default_output_sorted_witness :
  StronglySorted String.le (main (mkArgs "." false ["src"]) site_world).1.
Proof.
  apply (main_default_output_sorted "." ["src"] site_world). reflexivity.
Defined.

(** ** Pruning and filtering, roots and sub-directories *)

Lemma StronglySorted_filter {A} (R : relation A) (P : A → Prop)
    `{∀ x, Decision (P x)} (l : list A) :
  StronglySorted R l → StronglySorted R (filter P l).
Proof.
  induction l as [|x l IH]; [done|]. rewrite StronglySorted_cons. intros [Hx Hl].
  destruct (decide (P x)).
  - rewrite filter_cons_True by done. apply StronglySorted_cons. split; [|by apply IH].
    apply Forall_forall. intros y [_ Hy]%list_elem_of_filter.
    rewrite Forall_forall in Hx. by apply Hx.
  - rewrite filter_cons_False by done. by apply IH.
Qed.

Lemma listed_dirs_iff (exclude_dirs : gset string) entries ds f :
  listed exclude_dirs entries (ds ++ [f]) ↔
  listed ∅ entries (ds ++ [f]) ∧ Forall (λ d, d ∉ exclude_dirs) ds.
Proof.
  revert entries. induction ds as [|d ds IH]; intros entries; cbn [app].
  - split.
    + inversion 1 as [? ? n Hin Hdir|? ? ? ? ? ? Hsub]; simplify_eq.
      * split; [by eapply listed_here|done].
      * by destruct (listed_nonempty _ _ _ Hsub).
    + intros [Hl _]. inversion Hl as [? ? n Hin Hdir|? ? ? ? ? ? Hsub]; simplify_eq.
      * by eapply listed_here.
      * by destruct (listed_nonempty _ _ _ Hsub).
  - split.
    + inversion 1 as [|? ? sub ? Hin Hex Hsub]; simplify_eq; [by destruct ds|].
      apply IH in Hsub as [Hsub Hds]. split; [|by apply Forall_cons].
      eapply listed_below; [done|by apply not_elem_of_empty|done].
    + intros [Hl Hds]. apply Forall_cons in Hds as [Hd Hds].
      inversion Hl as [|? ? sub ? Hin Hex Hsub]; simplify_eq; [by destruct ds|].
      eapply listed_below; [done..|]. apply IH. by split.
Qed.

(** X12.  Pruning gives what filtering afterwards would give: the result
    under an exclude set is the result under the empty exclude set with
    the paths removed that have an excluded name among their directory
    names. *)
Theorem pruning_is_filtering w root (exclude_dirs : gset string) entries files all :
  stat w (str (resolve w root)) = Some (Directory entries) →
  wf_node (Directory entries) = true →
  gather_files w root exclude_dirs = Some files →
  gather_files w root ∅ = Some all →
  files = filter (λ s, Forall (λ d, d ∉ exclude_dirs) (dir_parts s)) all.
Proof.
  intros Hstat Hwf Hfiles Hall.
  pose proof (elem_of_gather_files _ _ _ _ _ Hstat Hwf Hfiles) as Hin.
  pose proof (elem_of_gather_files _ _ _ _ _ Hstat Hwf Hall) as Hin'.
  assert (∀ ex ds f, listed ex entries (ds ++ [f]) →
            dir_parts (join_slash (ds ++ [f])) = ds) as Hparts.
  { intros ex ds f Hl. unfold dir_parts.
    rewrite split_join_slash; [apply removelast_last| |by destruct ds].
    by eapply valid_names_no_slash, listed_valid. }
  apply (Sorted_unique String.le).
  - by eapply StronglySorted_Sorted, gather_files_always_sorted.
  - by eapply StronglySorted_Sorted, StronglySorted_filter, gather_files_always_sorted.
  - apply NoDup_Permutation.
    + by eapply gather_files_NoDup.
    + by eapply NoDup_filter, gather_files_NoDup.
    + intros s. rewrite list_elem_of_filter, Hin, Hin'. split.
      * intros (p & Hp & ->). pose proof (listed_nonempty _ _ _ Hp) as Hne.
        destruct p as [|f ds _] using rev_ind; [done|].
        rewrite (Hparts _ _ _ Hp). apply listed_dirs_iff in Hp as [Hp Hds]. eauto.
      * intros [Hds (p & Hp & ->)]. pose proof (listed_nonempty _ _ _ Hp) as Hne.
        destruct p as [|f ds _] using rev_ind; [done|].
        rewrite (Hparts _ _ _ Hp) in Hds. exists (ds ++ [f]). split; [|done].
        apply listed_dirs_iff. by split.
Qed.

Lemma pruning_is_filtering_witness :
  default [] (gather_files site_world (Path ".") DEFAULT_EXCLUDE_DIRS) =
  filter (λ s, Forall (λ d, d ∉ DEFAULT_EXCLUDE_DIRS) (dir_parts s))
    (default [] (gather_files site_world (Path ".") ∅)).
Proof.
  apply (pruning_is_filtering site_world (Path ".") DEFAULT_EXCLUDE_DIRS site_entries);
    reflexivity.
Defined.

Lemma has_slash_app a b : has_slash (a +:+ "/" +:+ b) = true.
Proof.
  induction a as [|c a IH]; [done|]. rewrite append_cons. cbn [has_slash].
  rewrite IH. apply orb_true_r.
Qed.

Lemma append_slash_inj a b x y :
  has_slash a = false → has_slash b = false →
  a +:+ "/" +:+ x = b +:+ "/" +:+ y → a = b ∧ x = y.
Proof.
  revert b. induction a as [|c a IH]; intros [|c' b] Ha Hb Heq.
  - by injection Heq.
  - injection Heq as <- _. by cbn in Hb.
  - injection Heq as -> _. by cbn in Ha.
  - rewrite !append_cons in Heq. injection Heq as -> Heq.
    cbn in Ha, Hb. apply orb_false_elim in Ha as [_ Ha], Hb as [_ Hb].
    destruct (IH b Ha Hb Heq) as [-> ->]. done.
Qed.

(** X13.  Listing a sub-directory agrees with listing the root: when [d]
    is a directory of the root whose name is not excluded, a path is in
    the listing of [d] exactly when [d], a slash and that path is in the
    listing of the root. *)
Theorem gather_files_of_subdirectory w root root' exclude_dirs entries sub d files files' s :
  stat w (str (resolve w root)) = Some (Directory entries) →
  stat w (str (resolve w root')) = Some (Directory sub) →
  wf_node (Directory entries) = true →
  (d, Directory sub) ∈ entries → d ∉ exclude_dirs →
  gather_files w root exclude_dirs = Some files →
  gather_files w root' exclude_dirs = Some files' →
  s ∈ files' ↔ d +:+ "/" +:+ s ∈ files.
Proof.
  intros Hstat Hstat' Hwf Hd Hex Hfiles Hfiles'.
  destruct (wf_node_entry _ _ _ Hwf Hd) as [Hvalid Hwf'].
  rewrite (elem_of_gather_files _ _ _ _ _ Hstat Hwf Hfiles),
    (elem_of_gather_files _ _ _ _ _ Hstat' Hwf' Hfiles').
  assert (∀ h p, p ≠ [] → join_slash (h :: p) = h +:+ "/" +:+ join_slash p) as Hjoin.
  { by intros h [|??] ?. }
  split.
  - intros (p & Hp & ->). exists (d :: p). split; [by eapply listed_below|].
    symmetry. by eapply Hjoin, listed_nonempty.
  - intros (q & Hq & Heq). pose proof (listed_valid _ _ _ Hq Hwf) as Hnames.
    inversion Hq as [? f n Hin Hdir|? d' sub' p Hin Hex' Hp]; simplify_eq.
    + apply Forall_singleton in Hnames as (_ & _ & Hf).
      cbn in Heq. by rewrite <-Heq, has_slash_app in Hf.
    + rewrite Hjoin in Heq by by eapply listed_nonempty.
      apply Forall_cons in Hnames as [(_ & _ & Hd') _].
      apply append_slash_inj in Heq as [<- ->]; [|apply Hvalid|done].
      clear Hd'.
      assert (Directory sub' = Directory sub) as [= ->].
      { eapply entry_unique; [|done..]. by apply wf_node_Directory in Hwf as [? _]. }
      by exists p.
Qed.

Lemma gather_files_of_subdirectory_witness :
  "lib/supabaseClient.ts" ∈
    default [] (gather_files site_src_world (Path "/srv/build/src") DEFAULT_EXCLUDE_DIRS) ↔
  "src/lib/supabaseClient.ts" ∈
    default [] (gather_files site_src_world (Path "/srv/build") DEFAULT_EXCLUDE_DIRS).
Proof.
  eapply (gather_files_of_subdirectory site_src_world (Path "/srv/build")
            (Path "/srv/build/src") DEFAULT_EXCLUDE_DIRS site_entries _ "src");
    [reflexivity|reflexivity|reflexivity|find_entry|by vm_compute|reflexivity|reflexivity].
Defined.
